(** * Timeline editor (component [VideoEditor] of main.tsx): segment store,
      drag and resize geometry, AutoCut and the segment-chained playback
      scheduler.

    The React component [VideoEditor] is embedded as a record of its hooks
    ([useState] cells and [useRef] slots) and one state-passing function per
    event handler.  Conventions of the embedding:

    - a JavaScript [number] is an exact rational ([Q]); [Infinity], which the
      resize clamp uses for an asset without a known duration, is the extra
      point of [Num].  Every theorem is about this exact arithmetic; module
      [Double] runs the arithmetic of the resize on the binary64 numbers the
      program computes with, to see what rounding does to an exact equality;
    - [createId()] draws from an arbitrary supply [createId : nat -> Id]; the
      state counts the calls made so far;
    - the two media elements are seen through the commands the handlers send
      them ([videoLog], [audioLog]); whether [videoRef.current] is attached is
      read off the render function (the [<video>] element exists exactly when
      a selected video asset does);
    - a handler installed by [useEffect(..., [])] keeps the bindings of the
      render that installed it: the asset lists the resize handler reads are
      explicit parameters of [onResize] and [onMouseMove]. *)

From Stdlib Require Import List String Bool ZArith QArith Qminmax Lia Lqa.
From Stdlib Require Import Permutation Sorted.
From Stdlib Require PrimFloat.
Import ListNotations.

Local Open Scope Q_scope.

(** ** Data model *)

Definition Id := string.

Module Asset.
(** [VideoAsset] and [AudioAsset]: the same shape. *)
Record t := mk {
  id : Id;
  name : string;
  url : string;
  duration : option Q   (* duration?: number *)
}.
End Asset.

Module Segment.
(** [VideoSegment] and [AudioSegment]: the same shape. *)
Record t := mk {
  id : Id;
  assetId : Id;
  sourceStart : Q;
  duration : Q;
  timelineStart : Q
}.

(** [{ ...seg, timelineStart: v }] *)
Definition withTimelineStart (seg : t) (v : Q) : t :=
  mk (id seg) (assetId seg) (sourceStart seg) (duration seg) v.

(** [{ ...seg, sourceStart: s, duration: d }] *)
Definition withSource (seg : t) (s d : Q) : t :=
  mk (id seg) (assetId seg) s d (timelineStart seg).
End Segment.

Module Drag.
(** [dragState.current] when it is not null. *)
Record t := mk {
  id : option Id;          (* id: string | null *)
  initialX : Q;
  initialOffset : Q
}.
End Drag.

Inductive Edge := EdgeLeft | EdgeRight.

Module Resize.
(** [resizeState.current] when it is not null. *)
Record t := mk {
  id : option Id;          (* id: string | null *)
  edge : Edge;
  initialX : Q;
  initialSourceStart : Q;
  initialDuration : Q
}.
End Resize.

(** Commands a handler or an effect sends to a media element. *)
Inductive MediaCmd :=
| Pause
| Seek (t : Q)      (* media.currentTime = t *)
| Play.             (* safePlay(media) *)

(** The hooks of the component. *)
Record Editor := mkEditor {
  videoAssets : list Asset.t;
  audioAssets : list Asset.t;
  videoSegments : list Segment.t;
  audioSegments : list Segment.t;
  isPlaying : bool;
  selectedVideoSegmentId : option Id;
  selectedAudioSegmentId : option Id;
  isAudioPlaying : bool;
  dragState : option Drag.t;
  resizeState : option Resize.t;
  idCount : nat;                 (* calls of createId() so far *)
  videoLog : list MediaCmd;      (* commands sent to videoRef.current *)
  audioLog : list MediaCmd       (* commands sent to audioRef.current *)
}.

(** The state of the first render: every [useState] and [useRef] at its
    initial value. *)
Definition initialEditor : Editor :=
  mkEditor [] [] [] [] false None None false None None 0%nat [] [].

(** *** State setters ([setX(...)] and ref assignments) *)

Definition setVideoAssets (f : list Asset.t -> list Asset.t) (st : Editor) :=
  mkEditor (f (videoAssets st)) (audioAssets st) (videoSegments st)
    (audioSegments st) (isPlaying st) (selectedVideoSegmentId st)
    (selectedAudioSegmentId st) (isAudioPlaying st) (dragState st)
    (resizeState st) (idCount st) (videoLog st) (audioLog st).

Definition setAudioAssets (f : list Asset.t -> list Asset.t) (st : Editor) :=
  mkEditor (videoAssets st) (f (audioAssets st)) (videoSegments st)
    (audioSegments st) (isPlaying st) (selectedVideoSegmentId st)
    (selectedAudioSegmentId st) (isAudioPlaying st) (dragState st)
    (resizeState st) (idCount st) (videoLog st) (audioLog st).

Definition setVideoSegments (f : list Segment.t -> list Segment.t)
    (st : Editor) :=
  mkEditor (videoAssets st) (audioAssets st) (f (videoSegments st))
    (audioSegments st) (isPlaying st) (selectedVideoSegmentId st)
    (selectedAudioSegmentId st) (isAudioPlaying st) (dragState st)
    (resizeState st) (idCount st) (videoLog st) (audioLog st).

Definition setAudioSegments (f : list Segment.t -> list Segment.t)
    (st : Editor) :=
  mkEditor (videoAssets st) (audioAssets st) (videoSegments st)
    (f (audioSegments st)) (isPlaying st) (selectedVideoSegmentId st)
    (selectedAudioSegmentId st) (isAudioPlaying st) (dragState st)
    (resizeState st) (idCount st) (videoLog st) (audioLog st).

Definition setIsPlaying (b : bool) (st : Editor) :=
  mkEditor (videoAssets st) (audioAssets st) (videoSegments st)
    (audioSegments st) b (selectedVideoSegmentId st)
    (selectedAudioSegmentId st) (isAudioPlaying st) (dragState st)
    (resizeState st) (idCount st) (videoLog st) (audioLog st).

Definition setSelectedVideoSegmentId (v : option Id) (st : Editor) :=
  mkEditor (videoAssets st) (audioAssets st) (videoSegments st)
    (audioSegments st) (isPlaying st) v
    (selectedAudioSegmentId st) (isAudioPlaying st) (dragState st)
    (resizeState st) (idCount st) (videoLog st) (audioLog st).

Definition setSelectedAudioSegmentId (v : option Id) (st : Editor) :=
  mkEditor (videoAssets st) (audioAssets st) (videoSegments st)
    (audioSegments st) (isPlaying st) (selectedVideoSegmentId st)
    v (isAudioPlaying st) (dragState st)
    (resizeState st) (idCount st) (videoLog st) (audioLog st).

Definition setIsAudioPlaying (b : bool) (st : Editor) :=
  mkEditor (videoAssets st) (audioAssets st) (videoSegments st)
    (audioSegments st) (isPlaying st) (selectedVideoSegmentId st)
    (selectedAudioSegmentId st) b (dragState st)
    (resizeState st) (idCount st) (videoLog st) (audioLog st).

Definition setDragState (d : option Drag.t) (st : Editor) :=
  mkEditor (videoAssets st) (audioAssets st) (videoSegments st)
    (audioSegments st) (isPlaying st) (selectedVideoSegmentId st)
    (selectedAudioSegmentId st) (isAudioPlaying st) d
    (resizeState st) (idCount st) (videoLog st) (audioLog st).

Definition setResizeState (r : option Resize.t) (st : Editor) :=
  mkEditor (videoAssets st) (audioAssets st) (videoSegments st)
    (audioSegments st) (isPlaying st) (selectedVideoSegmentId st)
    (selectedAudioSegmentId st) (isAudioPlaying st) (dragState st)
    r (idCount st) (videoLog st) (audioLog st).

Definition setIdCount (n : nat) (st : Editor) :=
  mkEditor (videoAssets st) (audioAssets st) (videoSegments st)
    (audioSegments st) (isPlaying st) (selectedVideoSegmentId st)
    (selectedAudioSegmentId st) (isAudioPlaying st) (dragState st)
    (resizeState st) n (videoLog st) (audioLog st).

Definition sendVideo (c : MediaCmd) (st : Editor) :=
  mkEditor (videoAssets st) (audioAssets st) (videoSegments st)
    (audioSegments st) (isPlaying st) (selectedVideoSegmentId st)
    (selectedAudioSegmentId st) (isAudioPlaying st) (dragState st)
    (resizeState st) (idCount st) (videoLog st ++ [c]) (audioLog st).

Definition sendAudio (c : MediaCmd) (st : Editor) :=
  mkEditor (videoAssets st) (audioAssets st) (videoSegments st)
    (audioSegments st) (isPlaying st) (selectedVideoSegmentId st)
    (selectedAudioSegmentId st) (isAudioPlaying st) (dragState st)
    (resizeState st) (idCount st) (videoLog st) (audioLog st ++ [c]).

(** ** Numbers *)

Definition PIXELS_PER_SECOND : Q := 80.

(** A number that may be [Infinity]. *)
Inductive Num :=
| Fin (q : Q)
| Infinity.

(** [m - q] for a possibly infinite [m]. *)
Definition Num_sub (m : Num) (q : Q) : Num :=
  match m with
  | Fin x => Fin (x - q)
  | Infinity => Infinity
  end.

(** [Math.min(q, m)] for a finite [q] and a possibly infinite [m]. *)
Definition Math_min (q : Q) (m : Num) : Q :=
  match m with
  | Fin x => Qmin q x
  | Infinity => q
  end.

Definition Math_max (x y : Q) : Q := Qmax x y.

(** ** Derived values of a render *)

(** [segments.find(s => s.id === selected) || null] *)
Definition findSegment (segments : list Segment.t) (selected : option Id)
    : option Segment.t :=
  match selected with
  | Some i => find (fun s => String.eqb (Segment.id s) i) segments
  | None => None
  end.

Definition findAsset (assets : list Asset.t) (i : Id) : option Asset.t :=
  find (fun a => String.eqb (Asset.id a) i) assets.

Definition selectedVideoSegment (st : Editor) : option Segment.t :=
  findSegment (videoSegments st) (selectedVideoSegmentId st).

Definition selectedAudioSegment (st : Editor) : option Segment.t :=
  findSegment (audioSegments st) (selectedAudioSegmentId st).

Definition selectedVideoAsset (st : Editor) : option Asset.t :=
  match selectedVideoSegment st with
  | Some seg => findAsset (videoAssets st) (Segment.assetId seg)
  | None => None
  end.

Definition selectedAudioAsset (st : Editor) : option Asset.t :=
  match selectedAudioSegment st with
  | Some seg => findAsset (audioAssets st) (Segment.assetId seg)
  | None => None
  end.

(** [videoRef.current]: the render function mounts [<video ref={videoRef}>]
    only under [selectedVideoAsset ? ... : <span>], so the ref holds an
    element exactly when a selected video asset exists. *)
Definition videoRef_current (st : Editor) : option Asset.t :=
  selectedVideoAsset st.

(** [audioRef.current]: likewise for [<audio ref={audioRef}>]. *)
Definition audioRef_current (st : Editor) : option Asset.t :=
  selectedAudioAsset st.


(** [o === i] for a slot [o] that may be null. *)
Definition idIs (o : option Id) (i : Id) : bool :=
  match o with
  | Some j => String.eqb j i
  | None => false
  end.

(** ** Asset registry *)

(** [handleVideoLoadedMetadata] / [handleAudioLoadedMetadata]:
    [prev.map(a => a.id === assetId ? { ...a, duration } : a)] *)
Definition withDuration (assetId : Id) (d : Q) (a : Asset.t) : Asset.t :=
  if String.eqb (Asset.id a) assetId
  then Asset.mk (Asset.id a) (Asset.name a) (Asset.url a) (Some d)
  else a.

Definition handleVideoLoadedMetadata (assetId : Id) (d : Q) (st : Editor) :=
  setVideoAssets (map (withDuration assetId d)) st.

Definition handleAudioLoadedMetadata (assetId : Id) (d : Q) (st : Editor) :=
  setAudioAssets (map (withDuration assetId d)) st.

(** ** Segment store *)

(** [Partial<VideoSegment>]: the fields a patch carries. *)
Record Patch := mkPatch {
  p_id : option Id;
  p_assetId : option Id;
  p_sourceStart : option Q;
  p_duration : option Q;
  p_timelineStart : option Q
}.

Definition orElse {A} (o : option A) (d : A) : A :=
  match o with
  | Some x => x
  | None => d
  end.

(** [{ ...s, ...patch }] *)
Definition applyPatch (patch : Patch) (s : Segment.t) : Segment.t :=
  Segment.mk (orElse (p_id patch) (Segment.id s))
    (orElse (p_assetId patch) (Segment.assetId s))
    (orElse (p_sourceStart patch) (Segment.sourceStart s))
    (orElse (p_duration patch) (Segment.duration s))
    (orElse (p_timelineStart patch) (Segment.timelineStart s)).

Definition updateSegments (i : Id) (patch : Patch) (prev : list Segment.t) :=
  map (fun s => if String.eqb (Segment.id s) i then applyPatch patch s else s)
    prev.

Definition updateVideoSegment (i : Id) (patch : Patch) (st : Editor) :=
  setVideoSegments (updateSegments i patch) st.

Definition updateAudioSegment (i : Id) (patch : Patch) (st : Editor) :=
  setAudioSegments (updateSegments i patch) st.

(** [prev.filter(s => s.id !== id)] *)
Definition removeId (i : Id) (prev : list Segment.t) : list Segment.t :=
  filter (fun s => negb (String.eqb (Segment.id s) i)) prev.

Definition deleteVideoSegment (i : Id) (st : Editor) : Editor :=
  let st1 := setVideoSegments (removeId i) st in
  if idIs (selectedVideoSegmentId st) i
  then setSelectedVideoSegmentId None st1
  else st1.

Definition deleteAudioSegment (i : Id) (st : Editor) : Editor :=
  let st1 := setAudioSegments (removeId i) st in
  if idIs (selectedAudioSegmentId st) i
  then setSelectedAudioSegmentId None st1
  else st1.

(** *** Ordering by [timelineStart]

    [[...segments].sort((a, b) => a.timelineStart - b.timelineStart)]: the
    sort of the language is stable, so it is the stable insertion sort. *)
Fixpoint insertByTimelineStart (x : Segment.t) (l : list Segment.t)
    : list Segment.t :=
  match l with
  | [] => [x]
  | y :: ys =>
      if Qle_bool (Segment.timelineStart x) (Segment.timelineStart y)
      then x :: l
      else y :: insertByTimelineStart x ys
  end.

Definition sortByTimelineStart (l : list Segment.t) : list Segment.t :=
  fold_right insertByTimelineStart [] l.

(** [l.findIndex(p)]: -1 when nothing matches. *)
Fixpoint findIndex {A} (p : A -> bool) (l : list A) : Z :=
  match l with
  | [] => (-1)%Z
  | x :: xs =>
      if p x then 0%Z
      else let r := findIndex p xs in
           if (r <? 0)%Z then (-1)%Z else (r + 1)%Z
  end.

(** [l[i]]: undefined outside the array. *)
Definition at_ {A} (l : list A) (i : Z) : option A :=
  if (i <? 0)%Z then None else nth_error l (Z.to_nat i).

(** The segment after segment [sel] in timeline order:
    [sorted[sorted.findIndex(s => s.id === sel.id) + 1]]. *)
Definition nextAfter (segments : list Segment.t) (sel : Segment.t)
    : option Segment.t :=
  let sorted := sortByTimelineStart segments in
  let idx :=
    findIndex (fun s => String.eqb (Segment.id s) (Segment.id sel)) sorted in
  at_ sorted (idx + 1)%Z.

Definition getNextVideoSegment (st : Editor) : option Segment.t :=
  match selectedVideoSegment st with
  | None => None
  | Some sel => nextAfter (videoSegments st) sel
  end.

(** ** Creating segments *)

Module Highlight.
(** [{ start: number; end: number }] *)
Record t := mk {
  start : Q;
  end_ : Q
}.
End Highlight.

(** The stubbed answer of the highlight backend. *)
Definition HIGHLIGHTS : list Highlight.t :=
  [ Highlight.mk 2 4; Highlight.mk 6 7; Highlight.mk 9 10 ].

Section Creation.

(** [createId()]: the [n]-th call returns [createId n]. *)
Variable createId : nat -> Id.

(** [asset.duration ?? 10] *)
Definition defaultDuration (asset : Asset.t) : Q :=
  match Asset.duration asset with
  | Some d => d
  | None => 10
  end.

Definition addVideoToTimeline (asset : Asset.t) (st : Editor) : Editor :=
  let newId := createId (idCount st) in
  let segment :=
    Segment.mk newId (Asset.id asset) 0 (defaultDuration asset) 0 in
  setSelectedVideoSegmentId (Some newId)
    (setVideoSegments (fun prev => prev ++ [segment])
       (setIdCount (S (idCount st)) st)).

Definition addAudioToTimeline (asset : Asset.t) (st : Editor) : Editor :=
  let segment :=
    Segment.mk (createId (idCount st)) (Asset.id asset) 0
      (defaultDuration asset) 0 in
  setSelectedAudioSegmentId (Some (Segment.id segment))
    (setAudioSegments (fun prev => prev ++ [segment])
       (setIdCount (S (idCount st)) st)).

(** [ranges.map(h => ({ id: createId(), assetId, sourceStart: h.start,
    duration: h.end - h.start, timelineStart: 0 }))], the first call of
    [createId] being call number [n]. *)
Fixpoint highlightSegments (n : nat) (assetId : Id)
    (ranges : list Highlight.t) : list Segment.t :=
  match ranges with
  | [] => []
  | h :: rest =>
      Segment.mk (createId n) assetId (Highlight.start h)
        (Highlight.end_ h - Highlight.start h) 0
      :: highlightSegments (S n) assetId rest
  end.

(** The body of [handleAutoCutForAsset] for a highlight list [ranges]. *)
Definition applyHighlights (ranges : list Highlight.t) (asset : Asset.t)
    (st : Editor) : Editor :=
  let newSegments := highlightSegments (idCount st) (Asset.id asset) ranges in
  let st1 := setIdCount (idCount st + List.length ranges)%nat st in
  match newSegments with
  | [] => st1                         (* if (newSegments.length === 0) return *)
  | first :: _ =>
      setSelectedVideoSegmentId (Some (Segment.id first))
        (setVideoSegments (fun prev => prev ++ newSegments) st1)
  end.

Definition handleAutoCutForAsset (asset : Asset.t) (st : Editor) : Editor :=
  applyHighlights HIGHLIGHTS asset st.

(** [videoAssets.forEach(asset => allNewSegments.push(...))] *)
Fixpoint allHighlightSegments (n : nat) (ranges : list Highlight.t)
    (assets : list Asset.t) : list Segment.t :=
  match assets with
  | [] => []
  | asset :: rest =>
      highlightSegments n (Asset.id asset) ranges
      ++ allHighlightSegments (n + List.length ranges)%nat ranges rest
  end.

(** The body of [handleAutoCutAll] for a highlight list [ranges]; the alert
    shown when no video was uploaded changes no state. *)
Definition applyHighlightsAll (ranges : list Highlight.t) (st : Editor)
    : Editor :=
  match videoAssets st with
  | [] => st                          (* alert(...); return *)
  | _ :: _ =>
      let allNewSegments :=
        allHighlightSegments (idCount st) ranges (videoAssets st) in
      let st1 :=
        setIdCount
          (idCount st + List.length (videoAssets st) * List.length ranges)%nat
          st in
      match allNewSegments with
      | [] => st1                     (* if (allNewSegments.length === 0) return *)
      | first :: _ =>
          setSelectedVideoSegmentId (Some (Segment.id first))
            (setVideoSegments (fun prev => prev ++ allNewSegments) st1)
      end
  end.

Definition handleAutoCutAll (st : Editor) : Editor :=
  applyHighlightsAll HIGHLIGHTS st.

End Creation.

(** ** Playback scheduler *)

(** [togglePlayback] with [video] the content of [videoRef.current]. *)
Definition togglePlaybackOn (video : option Asset.t) (st : Editor) : Editor :=
  match video with
  | None => st                                      (* if (!video) return *)
  | Some _ =>
      if negb (isPlaying st) then
        match selectedVideoSegment st, videoSegments st with
        | Some _, _ => setIsPlaying true st
        | None, [] => st                            (* if (!startSegment) return *)
        | None, _ :: _ =>
            match sortByTimelineStart (videoSegments st) with
            | first :: _ =>
                setIsPlaying true
                  (setSelectedVideoSegmentId (Some (Segment.id first)) st)
            | [] => st
            end
        end
      else sendVideo Pause (setIsPlaying false st)
  end.

Definition togglePlayback (st : Editor) : Editor :=
  togglePlaybackOn (videoRef_current st) st.

Definition toggleAudioPlaybackOn (audio : option Asset.t) (st : Editor)
    : Editor :=
  match audio with
  | None => st
  | Some _ =>
      if negb (isAudioPlaying st) then
        match selectedAudioSegment st, audioSegments st with
        | Some _, _ => setIsAudioPlaying true st
        | None, [] => st
        | None, _ :: _ =>
            match sortByTimelineStart (audioSegments st) with
            | first :: _ =>
                setIsAudioPlaying true
                  (setSelectedAudioSegmentId (Some (Segment.id first)) st)
            | [] => st
            end
        end
      else sendAudio Pause (setIsAudioPlaying false st)
  end.

Definition toggleAudioPlayback (st : Editor) : Editor :=
  toggleAudioPlaybackOn (audioRef_current st) st.

(** The effect that repositions and plays: it runs when the selected segment,
    its asset or [isPlaying] changed. *)
Definition videoPlayEffect (st : Editor) : Editor :=
  match videoRef_current st, selectedVideoSegment st with
  | Some _, Some seg =>
      if isPlaying st
      then sendVideo Play (sendVideo (Seek (Segment.sourceStart seg)) st)
      else st
  | _, _ => st
  end.

Definition audioPlayEffect (st : Editor) : Editor :=
  match audioRef_current st, selectedAudioSegment st with
  | Some _, Some seg =>
      if isAudioPlaying st
      then sendAudio Play (sendAudio (Seek (Segment.sourceStart seg)) st)
      else st
  | _, _ => st
  end.

(** The [timeupdate] listener of the video element, [currentTime] being
    [video.currentTime]; the effect registers it only when the element and a
    selected segment exist. *)
Definition onTimeUpdateOn (video : option Asset.t) (currentTime : Q)
    (st : Editor) : Editor :=
  match video, selectedVideoSegment st with
  | Some _, Some sel =>
      let stopAt := Segment.sourceStart sel + Segment.duration sel in
      if negb (isPlaying st) then st
      else if Qle_bool stopAt currentTime then
        match getNextVideoSegment st with
        | Some next => setSelectedVideoSegmentId (Some (Segment.id next)) st
        | None => sendVideo Pause (setIsPlaying false st)
        end
      else st
  | _, _ => st
  end.

Definition onTimeUpdate (currentTime : Q) (st : Editor) : Editor :=
  onTimeUpdateOn (videoRef_current st) currentTime st.

Definition onAudioTimeUpdateOn (audio : option Asset.t) (currentTime : Q)
    (st : Editor) : Editor :=
  match audio, selectedAudioSegment st with
  | Some _, Some sel =>
      let stopAt := Segment.sourceStart sel + Segment.duration sel in
      if negb (isAudioPlaying st) then st
      else if Qle_bool stopAt currentTime then
        match nextAfter (audioSegments st) sel with
        | Some next => setSelectedAudioSegmentId (Some (Segment.id next)) st
        | None => sendAudio Pause (setIsAudioPlaying false st)
        end
      else st
  | _, _ => st
  end.

Definition onAudioTimeUpdate (currentTime : Q) (st : Editor) : Editor :=
  onAudioTimeUpdateOn (audioRef_current st) currentTime st.

(** ** Drag and resize gestures *)

(** [onSegmentMouseDown(e, segmentId, initialTimelineStart)], [clientX] being
    [e.clientX]. *)
Definition onSegmentMouseDown (clientX : Q) (segmentId : Id)
    (initialTimelineStart : Q) (st : Editor) : Editor :=
  setDragState (Some (Drag.mk (Some segmentId) clientX initialTimelineStart))
    st.

(** The [onMouseDown] of a resize handle of segment [seg]; it stops the
    propagation, so [onSegmentMouseDown] does not run. *)
Definition onHandleMouseDown (edge : Edge) (clientX : Q) (seg : Segment.t)
    (st : Editor) : Editor :=
  setResizeState
    (Some (Resize.mk (Some (Segment.id seg)) edge clientX
             (Segment.sourceStart seg) (Segment.duration seg)))
    st.

Definition onMouseUp (st : Editor) : Editor :=
  setResizeState None (setDragState None st).

(** The callback both stores are mapped with while dragging. *)
Definition dragSegment (d : Drag.t) (updated : Q) (seg : Segment.t)
    : Segment.t :=
  if idIs (Drag.id d) (Segment.id seg)
  then Segment.withTimelineStart seg (Math_max 0 updated)
  else seg.

(** [asset?.duration ?? Infinity] for the asset of [seg] in [assets]. *)
Definition assetMax (assets : list Asset.t) (seg : Segment.t) : Num :=
  match findAsset assets (Segment.assetId seg) with
  | Some asset =>
      match Asset.duration asset with
      | Some d => Fin d
      | None => Infinity
      end
  | None => Infinity
  end.

(** The callback a store is mapped with while resizing; [assets] is the asset
    list the handler reads. *)
Definition resizeSegment (assets : list Asset.t) (r : Resize.t)
    (deltaSecs : Q) (seg : Segment.t) : Segment.t :=
  if negb (idIs (Resize.id r) (Segment.id seg)) then seg
  else
    let newStart :=
      match Resize.edge r with
      | EdgeLeft => Math_max 0 (Resize.initialSourceStart r + deltaSecs)
      | EdgeRight => Resize.initialSourceStart r
      end in
    let newDuration :=
      match Resize.edge r with
      | EdgeLeft => Resize.initialDuration r - deltaSecs
      | EdgeRight => Resize.initialDuration r + deltaSecs
      end in
    let max := assetMax assets seg in
    let newDuration :=
      Math_max 0.1 (Math_min newDuration (Num_sub max newStart)) in
    Segment.withSource seg newStart newDuration.

(** [onResize(e)]; [videoAssetsSeen] and [audioAssetsSeen] are the values of
    [videoAssets] and [audioAssets] in the closure of the handler. *)
Definition onResize (videoAssetsSeen audioAssetsSeen : list Asset.t)
    (clientX : Q) (st : Editor) : Editor :=
  match resizeState st with
  | None => st
  | Some r =>
      let deltaPx := clientX - Resize.initialX r in
      let deltaSecs := deltaPx / PIXELS_PER_SECOND in
      setAudioSegments (map (resizeSegment audioAssetsSeen r deltaSecs))
        (setVideoSegments (map (resizeSegment videoAssetsSeen r deltaSecs))
           st)
  end.

(** The drag branch of [onMouseMove]. *)
Definition onDrag (clientX : Q) (st : Editor) : Editor :=
  match dragState st with
  | None => st
  | Some d =>
      let deltaPx := clientX - Drag.initialX d in
      let deltaSec := deltaPx / PIXELS_PER_SECOND in
      let updated := Drag.initialOffset d + deltaSec in
      setAudioSegments (map (dragSegment d updated))
        (setVideoSegments (map (dragSegment d updated)) st)
  end.

(** The window listener [onMouseMove(e)]. *)
Definition onMouseMove (videoAssetsSeen audioAssetsSeen : list Asset.t)
    (clientX : Q) (st : Editor) : Editor :=
  onResize videoAssetsSeen audioAssetsSeen clientX (onDrag clientX st).

(** The listener as the component installs it: the effect has an empty
    dependency list, so it runs after the first render only and its closures
    read the [videoAssets] and [audioAssets] of that render. *)
Definition installedOnMouseMove (clientX : Q) (st : Editor) : Editor :=
  onMouseMove (videoAssets initialEditor) (audioAssets initialEditor)
    clientX st.

(** The listener a component would install if the effect were re-run on every
    change of the asset lists. *)
Definition freshOnMouseMove (clientX : Q) (st : Editor) : Editor :=
  onMouseMove (videoAssets st) (audioAssets st) clientX st.

(** ** The resize arithmetic on doubles *)

Module Double.
Import PrimFloat.
Local Open Scope float_scope.
Local Set Warnings "-inexact-float".

(** [Math.max(a, b)] on doubles: NaN if either is NaN, and +0 above -0. *)
Definition Math_max (a b : float) : float :=
  if is_nan a || is_nan b then nan
  else if a <? b then b
  else if b <? a then a
  else if get_sign a then b else a.

(** [Math.min(a, b)] on doubles: NaN if either is NaN, and -0 below +0. *)
Definition Math_min (a b : float) : float :=
  if is_nan a || is_nan b then nan
  else if a <? b then a
  else if b <? a then b
  else if get_sign a then a else b.

Definition PIXELS_PER_SECOND : float := 80.

(** The numbers [onResize] writes into the segment of the gesture:
    [(newStart, newDuration)], with [max] the value of
    [asset?.duration ?? Infinity]. *)
Definition resizeValues (edge : Edge)
    (initialSourceStart initialDuration initialX clientX max : float)
    : float * float :=
  let deltaPx := clientX - initialX in
  let deltaSecs := deltaPx / PIXELS_PER_SECOND in
  let newStart :=
    match edge with
    | EdgeLeft => Math_max 0 (initialSourceStart + deltaSecs)
    | EdgeRight => initialSourceStart
    end in
  let newDuration :=
    match edge with
    | EdgeLeft => initialDuration - deltaSecs
    | EdgeRight => initialDuration + deltaSecs
    end in
  (newStart, Math_max 0.1 (Math_min newDuration (max - newStart))).

(** No clamp engages on a left-edge move: the start stays at or above 0 and
    the duration between the floor and the ceiling. *)
Definition unclamped
    (initialSourceStart initialDuration initialX clientX max : float) : bool :=
  let deltaSecs := (clientX - initialX) / PIXELS_PER_SECOND in
  (0 <=? initialSourceStart + deltaSecs)
  && (0.1 <=? initialDuration - deltaSecs)
  && (initialDuration - deltaSecs
      <=? max - (initialSourceStart + deltaSecs)).

(** [a === b] on numbers. *)
Definition same (a b : float) : bool := a =? b.

(** Segment (2,2) of a clip of duration [max]: its left handle is grabbed at
    x = 100 and released at x = 1, then grabbed again at x = 100 and moved to
    x = 41.  The result is the end point [sourceStart + duration] before the
    second gesture and after it. *)
Definition twoGestures (max : float) : float * float :=
  let '(s1, d1) := resizeValues EdgeLeft 2 2 100 1 max in
  let '(s2, d2) := resizeValues EdgeLeft s1 d1 100 41 max in
  (s1 + d1, s2 + d2).

Definition clipDuration : float := 12.

(** The two end points observed for a clip of 12 seconds. *)
Definition observedEnds : float * float := (4, 3.9999999999999996).

Definition twoGesturesUnclamped (max : float) : bool :=
  let '(s1, d1) := resizeValues EdgeLeft 2 2 100 1 max in
  unclamped 2 2 100 1 max && unclamped s1 d1 100 41 max.

End Double.

(** The order the sort establishes. *)
Definition byTimelineStart (a b : Segment.t) : Prop :=
  Segment.timelineStart a <= Segment.timelineStart b.

(** ** The two tracks, side by side *)

Inductive Track := Video | Audio.

Definition segmentsOf (tr : Track) (st : Editor) : list Segment.t :=
  match tr with
  | Video => videoSegments st
  | Audio => audioSegments st
  end.

Definition selectedIdOf (tr : Track) (st : Editor) : option Id :=
  match tr with
  | Video => selectedVideoSegmentId st
  | Audio => selectedAudioSegmentId st
  end.

Definition selectedSegmentOf (tr : Track) (st : Editor) : option Segment.t :=
  match tr with
  | Video => selectedVideoSegment st
  | Audio => selectedAudioSegment st
  end.

Definition assetsOf (tr : Track) (st : Editor) : list Asset.t :=
  match tr with
  | Video => videoAssets st
  | Audio => audioAssets st
  end.

Definition addToTimeline (createId : nat -> Id) (tr : Track)
    : Asset.t -> Editor -> Editor :=
  match tr with
  | Video => addVideoToTimeline createId
  | Audio => addAudioToTimeline createId
  end.

Definition deleteSegment (tr : Track) : Id -> Editor -> Editor :=
  match tr with
  | Video => deleteVideoSegment
  | Audio => deleteAudioSegment
  end.

Definition handleLoadedMetadata (tr : Track) : Id -> Q -> Editor -> Editor :=
  match tr with
  | Video => handleVideoLoadedMetadata
  | Audio => handleAudioLoadedMetadata
  end.

(** The asset list the resize handler reads for a track. *)
Definition seenBy (tr : Track) (videoAssetsSeen audioAssetsSeen : list Asset.t)
    : list Asset.t :=
  match tr with
  | Video => videoAssetsSeen
  | Audio => audioAssetsSeen
  end.

(** ** Properties of a resized segment *)

(** What the resize write is expected to establish for a segment whose asset
    is looked up in [assets]. *)
Definition resizeInvariant (assets : list Asset.t) (seg : Segment.t) : Prop :=
  0.1 <= Segment.duration seg
  /\ 0 <= Segment.sourceStart seg
  /\ forall D, assetMax assets seg = Fin D ->
               Segment.sourceStart seg + Segment.duration seg <= D.

(** What the resize write establishes for the segment of gesture [r]. *)
Definition resizedWithin (assets : list Asset.t) (r : Resize.t)
    (seg : Segment.t) : Prop :=
  idIs (Resize.id r) (Segment.id seg) = true ->
  0.1 <= Segment.duration seg
  /\ (Resize.edge r = EdgeLeft -> 0 <= Segment.sourceStart seg)
  /\ (Resize.edge r = EdgeRight ->
      Segment.sourceStart seg = Resize.initialSourceStart r)
  /\ (forall D, assetMax assets seg = Fin D ->
                0.1 <= D - Segment.sourceStart seg ->
                Segment.sourceStart seg + Segment.duration seg <= D)
  /\ (forall D, assetMax assets seg = Fin D ->
                D - Segment.sourceStart seg <= 0.1 ->
                Segment.duration seg == 0.1).

(** A left-edge move by [deltaSecs] on which no clamp engages. *)
Definition unclamped (assets : list Asset.t) (seg : Segment.t)
    (deltaSecs : Q) : Prop :=
  0 <= Segment.sourceStart seg + deltaSecs
  /\ 0.1 <= Segment.duration seg - deltaSecs
  /\ forall D, assetMax assets seg = Fin D ->
               Segment.duration seg - deltaSecs
               <= D - (Segment.sourceStart seg + deltaSecs).

(** What a resize may change in a segment: nothing but [sourceStart] and
    [duration], and nothing at all in a segment of another id. *)
Definition resizeFrame (r : option Resize.t) (s s' : Segment.t) : Prop :=
  Segment.id s' = Segment.id s
  /\ Segment.assetId s' = Segment.assetId s
  /\ Segment.timelineStart s' = Segment.timelineStart s
  /\ (match r with
      | Some r => idIs (Resize.id r) (Segment.id s) = false
      | None => True
      end -> s' = s).

(** What a drag of segment [segId] to [target] does to a segment: a segment
    of that id has [target] as its [timelineStart] and its other fields as
    before, a segment of another id is as before. *)
Definition dragged (segId : Id) (target : Q) (s s' : Segment.t) : Prop :=
  if String.eqb (Segment.id s) segId
  then s' = Segment.mk (Segment.id s) (Segment.assetId s)
              (Segment.sourceStart s) (Segment.duration s) target
  else s' = s.

(** ** Concrete sessions *)

Module Scenario.
Local Open Scope string_scope.

(** An id supply: "a", "b", "c", ... *)
Definition ids (n : nat) : Id :=
  String (Ascii.ascii_of_nat (97 + n)) EmptyString.

(** One uploaded video whose metadata reported 12 seconds. *)
Definition uploaded : Editor :=
  setVideoAssets
    (fun prev => (prev ++ [Asset.mk "v" "clip.mp4" "blob:clip" None])%list)
    initialEditor.

Definition registered : Editor := handleVideoLoadedMetadata "v" 12 uploaded.

Definition clip : Asset.t := Asset.mk "v" "clip.mp4" "blob:clip" (Some 12).

(** AutoCut on the clip: segments "a" (2,2), "b" (6,1) and "c" (9,1). *)
Definition cut : Editor := handleAutoCutForAsset ids clip registered.

Definition cutA : Segment.t := Segment.mk "a" "v" 2 2 0.

(** The left handle of "a" is grabbed at x = 100 ... *)
Definition grabbedLeft : Editor := onHandleMouseDown EdgeLeft 100 cutA cut.

(** ... and moved 800 pixels (10 seconds) to the right. *)
Definition overshootX : Q := 900.

(** [sourceStart] of "a" typed as -1 in the edit form, then the right handle
    grabbed at x = 100 and moved 80 pixels to the right. *)
Definition typed : Editor :=
  updateVideoSegment "a" (mkPatch None None (Some (-1)) None None) cut.

Definition typedA : Segment.t := Segment.mk "a" "v" (-1) 2 0.

Definition grabbedRight : Editor := onHandleMouseDown EdgeRight 100 typedA typed.

(** A (timelineStart 0, duration 3) and B (timelineStart 5, duration 2) on
    the video track with nothing selected: three clips added, the first two
    edited in the form, the third deleted while selected. *)
Definition threeSegments : Editor :=
  addVideoToTimeline ids clip
    (updateVideoSegment "b" (mkPatch None None None None (Some 5))
       (updateVideoSegment "b" (mkPatch None None None (Some 2) None)
          (addVideoToTimeline ids clip
             (updateVideoSegment "a" (mkPatch None None None (Some 3) None)
                (addVideoToTimeline ids clip registered))))).

Definition twoSegments : Editor := deleteVideoSegment "c" threeSegments.

Definition segA : Segment.t := Segment.mk "a" "v" 0 3 0.
Definition segB : Segment.t := Segment.mk "b" "v" 0 2 5.

(** An audio asset without metadata yet, for the default duration. *)
Definition song : Asset.t := Asset.mk "s" "song.mp3" "blob:song" None.

End Scenario.

(** ** The rest of the component *)

(** [getVideoTimelineEnd]: the second at which the video timeline ends,
    [segments.reduce((end, s) => segmentEnd > end ? segmentEnd : end, 0)]. *)
Definition laterEnd (end_ : Q) (s : Segment.t) : Q :=
  let segmentEnd := Segment.timelineStart s + Segment.duration s in
  if Qle_bool segmentEnd end_ then end_ else segmentEnd.

Definition getVideoTimelineEnd (segments : list Segment.t) : Q :=
  fold_left laterEnd segments 0.

(** What the timeline shows of a segment:
    [marginLeft: seg.timelineStart * PIXELS_PER_SECOND] and
    [width: seg.duration * PIXELS_PER_SECOND], in pixels. *)
Definition marginLeft (seg : Segment.t) : Q :=
  Segment.timelineStart seg * PIXELS_PER_SECOND.

Definition width (seg : Segment.t) : Q :=
  Segment.duration seg * PIXELS_PER_SECOND.

Module File.
(** A selected file: its name and the object URL the browser gives it. *)
Record t := mk {
  name : string;
  url : string
}.
End File.

(** The fields of the edit form of the selected segment. *)
Inductive FormField := FSourceStart | FDuration | FTimelineStart.

(** [{ sourceStart: v }], [{ duration: v }] or [{ timelineStart: v }] *)
Definition formPatch (f : FormField) (v : Q) : Patch :=
  match f with
  | FSourceStart => mkPatch None None (Some v) None None
  | FDuration => mkPatch None None None (Some v) None
  | FTimelineStart => mkPatch None None None None (Some v)
  end.

(** The [onChange] of an input of the form, rendered under
    [selectedVideoSegment && ...] (resp. audio). *)
Definition editSegment (tr : Track) (f : FormField) (v : Q) (st : Editor)
    : Editor :=
  match tr, selectedSegmentOf tr st with
  | Video, Some sel => updateVideoSegment (Segment.id sel) (formPatch f v) st
  | Audio, Some sel => updateAudioSegment (Segment.id sel) (formPatch f v) st
  | _, None => st
  end.

(** Segment [s] with the number [v] in field [f]. *)
Definition withField (f : FormField) (v : Q) (s : Segment.t) : Segment.t :=
  match f with
  | FSourceStart =>
      Segment.mk (Segment.id s) (Segment.assetId s) v (Segment.duration s)
        (Segment.timelineStart s)
  | FDuration =>
      Segment.mk (Segment.id s) (Segment.assetId s) (Segment.sourceStart s) v
        (Segment.timelineStart s)
  | FTimelineStart =>
      Segment.mk (Segment.id s) (Segment.assetId s) (Segment.sourceStart s)
        (Segment.duration s) v
  end.

(** The [onClick] of a segment of the timeline. *)
Definition selectSegment (tr : Track) (i : Id) (st : Editor) : Editor :=
  match tr with
  | Video => setSelectedVideoSegmentId (Some i) st
  | Audio => setSelectedAudioSegmentId (Some i) st
  end.

Section Session.

Variable createId : nat -> Id.

(** [Array.from(files).forEach(file => newAssets.push({ id: createId(),
    name: file.name, url }))], the first call of [createId] being call
    number [n]. *)
Fixpoint newAssets (n : nat) (files : list File.t) : list Asset.t :=
  match files with
  | [] => []
  | file :: rest =>
      Asset.mk (createId n) (File.name file) (File.url file) None
      :: newAssets (S n) rest
  end.

(** [handleVideoUpload]; [files] is [e.target.files], which may be null. *)
Definition handleVideoUpload (files : option (list File.t)) (st : Editor)
    : Editor :=
  match files with
  | None => st                                  (* if (!files) return *)
  | Some files =>
      setVideoAssets (fun prev => prev ++ newAssets (idCount st) files)
        (setIdCount (idCount st + List.length files)%nat st)
  end.

Definition handleAudioUpload (files : option (list File.t)) (st : Editor)
    : Editor :=
  match files with
  | None => st
  | Some files =>
      setAudioAssets (fun prev => prev ++ newAssets (idCount st) files)
        (setIdCount (idCount st + List.length files)%nat st)
  end.

Definition handleUpload (tr : Track) : option (list File.t) -> Editor -> Editor :=
  match tr with
  | Video => handleVideoUpload
  | Audio => handleAudioUpload
  end.

(** The states of a session: what the component can be brought to from its
    first render by the events its render function wires to the handlers. *)
Inductive Reachable : Editor -> Prop :=
| Reach_mount : Reachable initialEditor
| Reach_upload tr st files :
    Reachable st -> Reachable (handleUpload tr files st)
| Reach_metadata tr st asset d :
    Reachable st -> In asset (assetsOf tr st) ->
    Reachable (handleLoadedMetadata tr (Asset.id asset) d st)
| Reach_add tr st asset :
    Reachable st -> In asset (assetsOf tr st) ->
    Reachable (addToTimeline createId tr asset st)
| Reach_autoCut st asset :
    Reachable st -> In asset (videoAssets st) ->
    Reachable (handleAutoCutForAsset createId asset st)
| Reach_autoCutAll st :
    Reachable st -> Reachable (handleAutoCutAll createId st)
| Reach_click tr st seg :
    Reachable st -> In seg (segmentsOf tr st) ->
    Reachable (selectSegment tr (Segment.id seg) st)
| Reach_delete tr st seg :
    Reachable st -> In seg (segmentsOf tr st) ->
    Reachable (deleteSegment tr (Segment.id seg) st)
| Reach_edit tr st f v :
    Reachable st -> Reachable (editSegment tr f v st)
| Reach_toggle st :
    Reachable st -> Reachable (togglePlayback st)
| Reach_toggleAudio st :
    Reachable st -> Reachable (toggleAudioPlayback st)
| Reach_playEffect st :
    Reachable st -> Reachable (videoPlayEffect st)
| Reach_audioPlayEffect st :
    Reachable st -> Reachable (audioPlayEffect st)
| Reach_timeUpdate st t :
    Reachable st -> Reachable (onTimeUpdate t st)
| Reach_audioTimeUpdate st t :
    Reachable st -> Reachable (onAudioTimeUpdate t st)
| Reach_grab tr st seg x :
    Reachable st -> In seg (segmentsOf tr st) ->
    Reachable
      (onSegmentMouseDown x (Segment.id seg) (Segment.timelineStart seg) st)
| Reach_grabHandle tr st seg edge x :
    Reachable st -> In seg (segmentsOf tr st) ->
    Reachable (onHandleMouseDown edge x seg st)
| Reach_move st x :
    Reachable st -> Reachable (installedOnMouseMove x st)
| Reach_release st :
    Reachable st -> Reachable (onMouseUp st).

(** Every id in use: assets and segments of both tracks. *)
Definition allIds (st : Editor) : list Id :=
  map Asset.id (videoAssets st) ++ map Asset.id (audioAssets st)
  ++ map Segment.id (videoSegments st) ++ map Segment.id (audioSegments st).

(** An id that [createId] returned in this session. *)
Definition issued (st : Editor) (i : Id) : Prop :=
  exists k, (k < idCount st)%nat /\ i = createId k.

End Session.

(** The selection of a track names a segment of the track, or nothing. *)
Definition selectionValid (tr : Track) (st : Editor) : Prop :=
  match selectedIdOf tr st with
  | None => True
  | Some i => exists s, In s (segmentsOf tr st) /\ Segment.id s = i
  end.

(** Every segment of a track is cut from an asset of the track. *)
Definition assetsResolved (tr : Track) (st : Editor) : Prop :=
  forall s, In s (segmentsOf tr st) ->
  exists a, In a (assetsOf tr st) /\ Asset.id a = Segment.assetId s.

Definition injective (createId : nat -> Id) : Prop :=
  forall m n, createId m = createId n -> m = n.

(** An id supply without repetition: the empty string, "x", "xx", ... *)
Fixpoint unary (n : nat) : Id :=
  match n with
  | O => EmptyString
  | S k => String (Ascii.ascii_of_nat 120) (unary k)
  end.

(** The ids of the segments of a track, the ids of the assets they are cut
    from, and the ids of the assets of the track. *)
Definition segmentIds (tr : Track) (st : Editor) : list Id :=
  map Segment.id (segmentsOf tr st).

Definition usedAssetIds (tr : Track) (st : Editor) : list Id :=
  map Segment.assetId (segmentsOf tr st).

Definition assetIds (tr : Track) (st : Editor) : list Id :=
  map Asset.id (assetsOf tr st).

(** Two states with the same ids everywhere and as many ids drawn. *)
Definition sameIds (a b : Editor) : Prop :=
  idCount b = idCount a
  /\ forall tr,
       segmentIds tr b = segmentIds tr a
       /\ usedAssetIds tr b = usedAssetIds tr a
       /\ assetIds tr b = assetIds tr a.

(** The other track. *)
Definition other (tr : Track) : Track :=
  match tr with
  | Video => Audio
  | Audio => Video
  end.

(** Two states with the same assets and segments and as many ids drawn. *)
Definition sameContent (a b : Editor) : Prop :=
  idCount b = idCount a
  /\ videoAssets b = videoAssets a /\ audioAssets b = audioAssets a
  /\ videoSegments b = videoSegments a /\ audioSegments b = audioSegments a.

(** What every handler does to the ids, from state [a] to state [b]: assets
    stay; a segment is cut from an asset it was cut from before or from an
    asset of the track; the selection is a segment of the track, or the old
    selection if that is still there. *)
Definition Step (a b : Editor) : Prop :=
  forall tr,
    incl (assetIds tr a) (assetIds tr b)
    /\ (forall x, In x (usedAssetIds tr b) ->
                  In x (usedAssetIds tr a) \/ In x (assetIds tr b))
    /\ (forall i, selectedIdOf tr b = Some i ->
                  In i (segmentIds tr b)
                  \/ (selectedIdOf tr a = Some i
                      /\ (In i (segmentIds tr a) -> In i (segmentIds tr b)))).

Definition Inv (st : Editor) : Prop :=
  forall tr, selectionValid tr st /\ assetsResolved tr st.

(** The ids of a session are new: no id occurs twice among the assets and
    segments, and each was drawn from [createId]. *)
Definition idsFresh (createId : nat -> Id) (st : Editor) : Prop :=
  NoDup (allIds st) /\ Forall (issued createId st) (allIds st).

(** ** A session from the first render on *)

Module Demo.
Local Open Scope string_scope.

Definition file : File.t := File.mk "clip.mp4" "blob:clip".

(** One video is uploaded ... *)
Definition uploaded : Editor :=
  handleUpload unary Video (Some [file]) initialEditor.

Definition assetBefore : Asset.t :=
  Asset.mk (unary 0) "clip.mp4" "blob:clip" None.

(** ... its metadata reports 12 seconds ... *)
Definition registered : Editor :=
  handleLoadedMetadata Video (Asset.id assetBefore) 12 uploaded.

Definition asset : Asset.t :=
  Asset.mk (unary 0) "clip.mp4" "blob:clip" (Some 12).

(** ... AutoCut cuts it into (2,2), (6,1) and (9,1), the first selected ... *)
Definition cut : Editor := handleAutoCutForAsset unary asset registered.

Definition first : Segment.t := Segment.mk (unary 1) (unary 0) 2 2 0.
Definition second : Segment.t := Segment.mk (unary 2) (unary 0) 6 1 0.
Definition third : Segment.t := Segment.mk (unary 3) (unary 0) 9 1 0.

(** ... and Play is pressed. *)
Definition playing : Editor := togglePlayback cut.

(** The selected segment is deleted while it plays. *)
Definition orphaned : Editor := deleteSegment Video (Segment.id first) playing.

End Demo.

(** The progress notification that reports the end of the selected video
    segment. *)
Definition endOfSelected (st : Editor) : Editor :=
  match selectedVideoSegment st with
  | Some sel =>
      onTimeUpdate (Segment.sourceStart sel + Segment.duration sel) st
  | None => st
  end.

(** * Proofs *)

(** ** Lists and setters *)

Lemma Forall2_map_self {A} (R : A -> A -> Prop) (f : A -> A) (l : list A) :
  (forall x, In x l -> R x (f x)) -> Forall2 R l (map f l).
Proof.
  induction l as [|x l IH]; intros H; simpl; constructor.
  - apply H; now left.
  - apply IH; intros y Hy; apply H; now right.
Qed.

Lemma idIs_Some (i j : Id) : idIs (Some i) j = String.eqb j i.
Proof. simpl; apply String.eqb_sym. Qed.

Lemma segmentsOf_onResize (tr : Track) (vA aA : list Asset.t) (x : Q)
    (st : Editor) (r : Resize.t) :
  resizeState st = Some r ->
  segmentsOf tr (onResize vA aA x st)
  = map (resizeSegment (seenBy tr vA aA) r
           ((x - Resize.initialX r) / PIXELS_PER_SECOND))
      (segmentsOf tr st).
Proof.
  intros Hr; unfold onResize; rewrite Hr; destruct tr; reflexivity.
Qed.

Lemma segmentsOf_onDrag (tr : Track) (x : Q) (st : Editor) (d : Drag.t) :
  dragState st = Some d ->
  segmentsOf tr (onDrag x st)
  = map (dragSegment d
           (Drag.initialOffset d + (x - Drag.initialX d) / PIXELS_PER_SECOND))
      (segmentsOf tr st).
Proof.
  intros Hd; unfold onDrag; rewrite Hd; destruct tr; reflexivity.
Qed.

(** ** The sort is a sort *)

Lemma insertByTimelineStart_perm (x : Segment.t) (l : list Segment.t) :
  Permutation (x :: l) (insertByTimelineStart x l).
Proof.
  induction l as [|y l IH]; simpl; [reflexivity|].
  destruct (Qle_bool _ _); [reflexivity|].
  rewrite perm_swap; now constructor.
Qed.

Lemma sortByTimelineStart_perm (l : list Segment.t) :
  Permutation l (sortByTimelineStart l).
Proof.
  induction l as [|x l IH]; simpl; [constructor|].
  rewrite <- insertByTimelineStart_perm; now constructor.
Qed.

Lemma insertByTimelineStart_sorted (x : Segment.t) (l : list Segment.t) :
  Sorted byTimelineStart l -> Sorted byTimelineStart (insertByTimelineStart x l).
Proof.
  induction 1 as [|y l Hl IH Hhd]; simpl; [repeat constructor|].
  destruct (Qle_bool (Segment.timelineStart x) (Segment.timelineStart y))
    eqn:E.
  - constructor; [now constructor|].
    constructor; now apply Qle_bool_iff.
  - assert (Hyx : byTimelineStart y x).
    { unfold byTimelineStart.
      destruct (Qlt_le_dec (Segment.timelineStart y) (Segment.timelineStart x))
        as [Hlt|Hle]; [now apply Qlt_le_weak|].
      apply Qle_bool_iff in Hle; congruence. }
    constructor; [exact IH|].
    destruct l as [|z l]; simpl; [now constructor|].
    destruct (Qle_bool (Segment.timelineStart x) (Segment.timelineStart z));
      constructor; [exact Hyx|].
    now inversion Hhd.
Qed.

Lemma sortByTimelineStart_sorted (l : list Segment.t) :
  Sorted byTimelineStart (sortByTimelineStart l).
Proof.
  induction l as [|x l IH]; simpl; [constructor|].
  now apply insertByTimelineStart_sorted.
Qed.

(** ** Resize *)

Lemma resizeSegment_other (assets : list Asset.t) (r : Resize.t) (delta : Q)
    (seg : Segment.t) :
  idIs (Resize.id r) (Segment.id seg) = false ->
  resizeSegment assets r delta seg = seg.
Proof. intros H; unfold resizeSegment; now rewrite H. Qed.

Lemma resizeSegment_id (assets : list Asset.t) (r : Resize.t) (delta : Q)
    (seg : Segment.t) :
  Segment.id (resizeSegment assets r delta seg) = Segment.id seg.
Proof.
  unfold resizeSegment; destruct (idIs _ _); reflexivity.
Qed.

Lemma resizeSegment_frame (assets : list Asset.t) (r : Resize.t) (delta : Q)
    (seg : Segment.t) :
  resizeFrame (Some r) seg (resizeSegment assets r delta seg).
Proof.
  unfold resizeFrame; repeat split.
  - apply resizeSegment_id.
  - unfold resizeSegment; destruct (idIs _ _); reflexivity.
  - unfold resizeSegment; destruct (idIs _ _); reflexivity.
  - apply resizeSegment_other.
Qed.

(** The clamp, on its own: the floor always holds, the ceiling holds when it
    leaves room for the floor. *)
Lemma clamp_floor (d : Q) (m : Num) : 0.1 <= Math_max 0.1 (Math_min d m).
Proof. apply Q.le_max_l. Qed.

Lemma clamp_ceiling (d M : Q) :
  0.1 <= M -> Math_max 0.1 (Math_min d (Fin M)) <= M.
Proof.
  intros H; unfold Math_max, Math_min.
  apply Q.max_lub; [exact H | apply Q.le_min_r].
Qed.

Lemma clamp_floor_wins (d M : Q) :
  M <= 0.1 -> Math_max 0.1 (Math_min d (Fin M)) == 0.1.
Proof.
  intros H; unfold Math_max, Math_min.
  apply Q.max_l.
  apply Qle_trans with M; [apply Q.le_min_r | exact H].
Qed.

Lemma clamp_idle (d : Q) (m : Num) :
  0.1 <= d -> (forall M, m = Fin M -> d <= M) ->
  Math_max 0.1 (Math_min d m) == d.
Proof.
  intros Hfloor Hceil; unfold Math_max.
  assert (Hmin : Math_min d m == d).
  { destruct m as [M|]; simpl; [|reflexivity].
    apply Q.min_l, Hceil; reflexivity. }
  rewrite Hmin; apply Q.max_r, Hfloor.
Qed.

Lemma resizeSegment_within (assets : list Asset.t) (r : Resize.t) (delta : Q)
    (seg : Segment.t) :
  resizedWithin assets r (resizeSegment assets r delta seg).
Proof.
  intros Hid; rewrite resizeSegment_id in Hid.
  unfold resizeSegment; rewrite Hid; simpl.
  split; [apply clamp_floor|].
  split; [intros He; rewrite He; apply Q.le_max_l|].
  split; [intros He; rewrite He; reflexivity|].
  split; intros D HD Hroom;
    change (assetMax assets seg = Fin D) in HD; rewrite HD; simpl Num_sub;
    set (s := match Resize.edge r with
              | EdgeLeft => _
              | EdgeRight => _
              end) in *.
  - pose proof (clamp_ceiling
                  (match Resize.edge r with
                   | EdgeLeft => Resize.initialDuration r - delta
                   | EdgeRight => Resize.initialDuration r + delta
                   end) (D - s) Hroom) as Hc.
    lra.
  - now apply clamp_floor_wins.
Qed.

(** C1 (as amended): after a resize write the resized segment has
    [duration >= 0.1]; its [sourceStart] is [>= 0] after a left-edge resize
    and is the value captured at the start of the gesture after a right-edge
    resize; and when the asset list read by the handler gives the segment's
    asset a known duration [D], then [sourceStart + duration <= D] if
    [D - sourceStart >= 0.1], and [duration] is 0.1 if [D - sourceStart <= 0.1].
    This holds on either track, for every pointer position. *)
Theorem resize_bounds (tr : Track) (vA aA : list Asset.t) (clientX : Q)
    (st : Editor) (r : Resize.t) :
  resizeState st = Some r ->
  Forall (resizedWithin (seenBy tr vA aA) r)
    (segmentsOf tr (onResize vA aA clientX st)).
Proof.
  intros Hr; rewrite (segmentsOf_onResize tr vA aA clientX st r Hr).
  apply Forall_forall; intros seg' Hin.
  apply in_map_iff in Hin; destruct Hin as [seg [<- _]].
  apply resizeSegment_within.
Qed.

Lemma resize_bounds_witness :
  Forall
    (resizedWithin (videoAssets Scenario.grabbedLeft)
       (Resize.mk (Some "a"%string) EdgeLeft 100 2 2))
    (videoSegments
       (onResize (videoAssets Scenario.grabbedLeft) [] Scenario.overshootX
          Scenario.grabbedLeft)).
Proof.
  apply (resize_bounds Video (videoAssets Scenario.grabbedLeft) []
           Scenario.overshootX Scenario.grabbedLeft
           (Resize.mk (Some "a"%string) EdgeLeft 100 2 2)).
  reflexivity.
Defined.

(** C1 (as stated) fails.  With a 12 second clip cut by AutoCut, dragging the
    left handle of segment (2,2) 800 pixels to the right writes
    [sourceStart = 12] and [duration = 0.1], which ends after the clip: the
    handler as installed and a handler reading the current registry agree on
    it.  And a segment whose [sourceStart] was typed as -1 keeps it through a
    right-edge resize. *)
Lemma resize_invariant_counterexample :
  (exists seg,
      hd_error (videoSegments
                  (installedOnMouseMove Scenario.overshootX
                     Scenario.grabbedLeft)) = Some seg
      /\ hd_error (videoSegments
                     (freshOnMouseMove Scenario.overshootX
                        Scenario.grabbedLeft)) = Some seg
      /\ assetMax (videoAssets Scenario.grabbedLeft) seg = Fin 12
      /\ Segment.sourceStart seg + Segment.duration seg == 12.1
      /\ ~ resizeInvariant (videoAssets Scenario.grabbedLeft) seg)
  /\ (exists seg,
      hd_error (videoSegments
                  (installedOnMouseMove 180 Scenario.grabbedRight)) = Some seg
      /\ hd_error (videoSegments
                     (freshOnMouseMove 180 Scenario.grabbedRight)) = Some seg
      /\ Segment.sourceStart seg == -1
      /\ ~ resizeInvariant (videoAssets Scenario.grabbedRight) seg).
Proof.
  split.
  - eexists; split; [vm_compute; reflexivity|].
    split; [vm_compute; reflexivity|].
    split; [reflexivity|].
    split; [vm_compute; reflexivity|].
    intros (_ & _ & H).
    specialize (H 12 eq_refl); vm_compute in H; apply H; reflexivity.
  - eexists; split; [vm_compute; reflexivity|].
    split; [vm_compute; reflexivity|].
    split; [vm_compute; reflexivity|].
    intros (_ & H & _); vm_compute in H; apply H; reflexivity.
Qed.

(** The handler as installed reads the empty asset lists of the first render,
    so the ceiling never engages in it: pulling the right handle of segment
    (9,1) of the 12 second clip 800 pixels to the right writes duration 11,
    where a handler reading the current registry writes duration 3. *)
Lemma installed_handler_misses_ceiling :
  (forall seg, assetMax (videoAssets initialEditor) seg = Infinity)
  /\ (let grabbed :=
        onHandleMouseDown EdgeRight 100
          (Segment.mk "c"%string "v"%string 9 1 0) Scenario.cut in
      (exists seg,
          nth_error (videoSegments (installedOnMouseMove 900 grabbed)) 2
          = Some seg
          /\ Segment.sourceStart seg == 9 /\ Segment.duration seg == 11)
      /\ (exists seg,
          nth_error (videoSegments (freshOnMouseMove 900 grabbed)) 2 = Some seg
          /\ Segment.sourceStart seg == 9 /\ Segment.duration seg == 3)).
Proof.
  split; [reflexivity|].
  split; eexists; (split; [vm_compute; reflexivity|]);
    split; vm_compute; reflexivity.
Qed.

(** C2 (as stated) fails on the doubles the program computes with.  Segment
    (2,2) of a 12 second clip, left handle moved 99 pixels to the left and,
    in a second gesture, 59 pixels more: no clamp engages in either gesture,
    the end point is 4 before the second gesture and 3.9999999999999996 after
    it, whether the handler sees the duration of the clip or not. *)
Lemma left_resize_end_counterexample :
  (Double.twoGesturesUnclamped Double.clipDuration = true
   /\ Double.twoGestures Double.clipDuration = Double.observedEnds
   /\ Double.same (fst (Double.twoGestures Double.clipDuration))
        (snd (Double.twoGestures Double.clipDuration))
      = false)
  /\ (Double.twoGesturesUnclamped PrimFloat.infinity = true
      /\ Double.same (fst (Double.twoGestures PrimFloat.infinity))
           (snd (Double.twoGestures PrimFloat.infinity))
         = false).
Proof. vm_compute; repeat split. Qed.

(** C2 (as amended): in exact arithmetic, a left-edge resize on which neither
    the clamp of [sourceStart] at 0 nor the clamp of the duration (floor 0.1,
    ceiling from the asset) engages moves [sourceStart] by [delta], shortens
    [duration] by [delta], and so keeps [sourceStart + duration] equal to its
    value from before the gesture. *)
Theorem left_resize_preserves_end (tr : Track) (vA aA : list Asset.t)
    (st : Editor) (seg : Segment.t) (i : nat) (x0 x : Q) :
  nth_error (segmentsOf tr st) i = Some seg ->
  unclamped (seenBy tr vA aA) seg ((x - x0) / PIXELS_PER_SECOND) ->
  exists seg',
    nth_error
      (segmentsOf tr (onResize vA aA x (onHandleMouseDown EdgeLeft x0 seg st)))
      i = Some seg'
    /\ Segment.sourceStart seg'
       == Segment.sourceStart seg + (x - x0) / PIXELS_PER_SECOND
    /\ Segment.duration seg'
       == Segment.duration seg - (x - x0) / PIXELS_PER_SECOND
    /\ Segment.sourceStart seg' + Segment.duration seg'
       == Segment.sourceStart seg + Segment.duration seg.
Proof.
  intros Hnth (Hstart & Hfloor & Hceil).
  set (delta := (x - x0) / PIXELS_PER_SECOND) in *.
  set (r := Resize.mk (Some (Segment.id seg)) EdgeLeft x0
              (Segment.sourceStart seg) (Segment.duration seg)).
  rewrite (segmentsOf_onResize tr vA aA x _ r) by reflexivity.
  assert (Hsame : segmentsOf tr (onHandleMouseDown EdgeLeft x0 seg st)
                  = segmentsOf tr st) by (destruct tr; reflexivity).
  rewrite Hsame, nth_error_map, Hnth; simpl option_map.
  eexists; split; [reflexivity|].
  unfold resizeSegment.
  replace (idIs (Resize.id r) (Segment.id seg)) with true
    by (simpl; now rewrite String.eqb_refl).
  cbn [negb Resize.edge Resize.initialX Resize.initialSourceStart
       Resize.initialDuration r Segment.withSource Segment.sourceStart
       Segment.duration].
  fold delta.
  assert (Hs : Math_max 0 (Segment.sourceStart seg + delta)
               == Segment.sourceStart seg + delta)
    by (apply Q.max_r, Hstart).
  assert (Hd : Math_max 0.1
                 (Math_min (Segment.duration seg - delta)
                    (Num_sub (assetMax (seenBy tr vA aA) seg)
                       (Math_max 0 (Segment.sourceStart seg + delta))))
               == Segment.duration seg - delta).
  { apply clamp_idle; [exact Hfloor|].
    intros M HM.
    destruct (assetMax (seenBy tr vA aA) seg) as [D|] eqn:HD;
      [|discriminate].
    simpl in HM; injection HM as <-.
    specialize (Hceil D eq_refl).
    rewrite Hs; exact Hceil. }
  split; [exact Hs|].
  split; [exact Hd|].
  revert Hd.
  generalize (Math_max 0.1
                (Math_min (Segment.duration seg - delta)
                   (Num_sub (assetMax (seenBy tr vA aA) seg)
                      (Math_max 0 (Segment.sourceStart seg + delta))))).
  revert Hs.
  generalize (Math_max 0 (Segment.sourceStart seg + delta)).
  intros s' Hs d' Hd; lra.
Qed.

Lemma left_resize_preserves_end_witness :
  exists seg',
    nth_error
      (segmentsOf Video
         (onResize (videoAssets Scenario.cut) [] 180
            (onHandleMouseDown EdgeLeft 100 Scenario.cutA Scenario.cut)))
      0 = Some seg'
    /\ Segment.sourceStart seg' == 2 + (180 - 100) / PIXELS_PER_SECOND
    /\ Segment.duration seg' == 2 - (180 - 100) / PIXELS_PER_SECOND
    /\ Segment.sourceStart seg' + Segment.duration seg' == 2 + 2.
Proof.
  apply (left_resize_preserves_end Video (videoAssets Scenario.cut) []
           Scenario.cut Scenario.cutA 0 100 180).
  - reflexivity.
  - split; [vm_compute; discriminate|].
    split; [vm_compute; discriminate|].
    intros D HD; vm_compute in HD; injection HD as <-.
    vm_compute; discriminate.
Defined.

(** ** Drag *)

Lemma dragged_other (segId : Id) (target : Q) (l l' : list Segment.t) :
  Forall2 (dragged segId target) l l' ->
  (forall s, In s l -> Segment.id s <> segId) ->
  l' = l.
Proof.
  induction 1 as [|s s' l l' Hd _ IH]; intros Hfree; [reflexivity|].
  unfold dragged in Hd.
  destruct (String.eqb_spec (Segment.id s) segId) as [E|_].
  - exfalso; apply (Hfree s); [now left | exact E].
  - rewrite Hd; f_equal; apply IH; intros y Hy; apply Hfree; now right.
Qed.

(** C3: a drag that started on segment [segId] at pointer position [x0] with
    [timelineStart = t0] sets, at pointer position [x], the [timelineStart]
    of the segments of that id to [max(0, t0 + (x - x0) / 80)] and leaves
    every other segment of both stores as it was; a store without that id is
    unchanged. *)
Theorem drag_sets_timelineStart (tr : Track) (vA aA : list Asset.t)
    (st : Editor) (segId : Id) (x0 t0 x : Q) :
  resizeState st = None ->
  Forall2 (dragged segId (Qmax 0 (t0 + (x - x0) / 80)))
    (segmentsOf tr st)
    (segmentsOf tr (onMouseMove vA aA x (onSegmentMouseDown x0 segId t0 st)))
  /\ ((forall s, In s (segmentsOf tr st) -> Segment.id s <> segId) ->
      segmentsOf tr (onMouseMove vA aA x (onSegmentMouseDown x0 segId t0 st))
      = segmentsOf tr st).
Proof.
  intros Hr.
  assert (H : Forall2 (dragged segId (Qmax 0 (t0 + (x - x0) / 80)))
                (segmentsOf tr st)
                (segmentsOf tr
                   (onMouseMove vA aA x (onSegmentMouseDown x0 segId t0 st)))).
  { unfold onMouseMove, onResize.
    replace (resizeState (onDrag x (onSegmentMouseDown x0 segId t0 st)))
      with (@None Resize.t) by (simpl; now rewrite Hr).
    rewrite (segmentsOf_onDrag tr x _ (Drag.mk (Some segId) x0 t0))
      by reflexivity.
    replace (segmentsOf tr (onSegmentMouseDown x0 segId t0 st))
      with (segmentsOf tr st) by (destruct tr; reflexivity).
    apply Forall2_map_self; intros s _.
    unfold dragged, dragSegment; cbn [Drag.id Drag.initialX Drag.initialOffset].
    rewrite idIs_Some.
    destruct (String.eqb (Segment.id s) segId); reflexivity. }
  split; [exact H|].
  intros Hfree; eapply dragged_other; eassumption.
Qed.

Lemma drag_sets_timelineStart_witness :
  Forall2 (dragged "b"%string (Qmax 0 (0 + (260 - 100) / 80)))
    (segmentsOf Video Scenario.cut)
    (segmentsOf Video
       (onMouseMove [] [] 260 (onSegmentMouseDown 100 "b"%string 0 Scenario.cut)))
  /\ ((forall s, In s (segmentsOf Video Scenario.cut) ->
                 Segment.id s <> "b"%string) ->
      segmentsOf Video
        (onMouseMove [] [] 260 (onSegmentMouseDown 100 "b"%string 0 Scenario.cut))
      = segmentsOf Video Scenario.cut).
Proof.
  apply (drag_sets_timelineStart Video [] [] Scenario.cut "b"%string 100 0 260).
  reflexivity.
Defined.

(** C4: a resize changes neither the id, the asset nor the [timelineStart] of
    any segment of either store, and changes nothing at all in a segment whose
    id is not the one of the gesture. *)
Theorem resize_frame (tr : Track) (vA aA : list Asset.t) (clientX : Q)
    (st : Editor) :
  Forall2 (resizeFrame (resizeState st))
    (segmentsOf tr st) (segmentsOf tr (onResize vA aA clientX st)).
Proof.
  destruct (resizeState st) as [r|] eqn:Hr.
  - rewrite (segmentsOf_onResize tr vA aA clientX st r Hr).
    apply Forall2_map_self; intros s _; apply resizeSegment_frame.
  - unfold onResize; rewrite Hr.
    rewrite <- (map_id (segmentsOf tr st)) at 2.
    apply Forall2_map_self; intros s _.
    unfold resizeFrame; auto.
Qed.

(** ** Adding and deleting segments *)

Lemma findSegment_app_fresh (l rest : list Segment.t) (s : Segment.t) :
  (forall y, In y l -> Segment.id y <> Segment.id s) ->
  findSegment (l ++ s :: rest) (Some (Segment.id s)) = Some s.
Proof.
  intros Hfresh; unfold findSegment.
  induction l as [|y l IH]; simpl.
  - now rewrite String.eqb_refl.
  - destruct (String.eqb_spec (Segment.id y) (Segment.id s)) as [E|_].
    + exfalso; apply (Hfresh y); [now left | exact E].
    + apply IH; intros z Hz; apply Hfresh; now right.
Qed.

(** C5: adding an asset to a track puts one new segment at the end of that
    track's collection and makes its id the selected one; the selected
    segment is the new one as soon as its id is not already in the track. *)
Theorem add_appends_and_selects (createId : nat -> Id) (tr : Track)
    (asset : Asset.t) (st : Editor) :
  exists segment,
    segmentsOf tr (addToTimeline createId tr asset st)
    = segmentsOf tr st ++ [segment]
    /\ Segment.id segment = createId (idCount st)
    /\ Segment.assetId segment = Asset.id asset
    /\ selectedIdOf tr (addToTimeline createId tr asset st)
       = Some (Segment.id segment)
    /\ ((forall s, In s (segmentsOf tr st) ->
                   Segment.id s <> Segment.id segment) ->
        selectedSegmentOf tr (addToTimeline createId tr asset st)
        = Some segment).
Proof.
  exists (Segment.mk (createId (idCount st)) (Asset.id asset) 0
            (defaultDuration asset) 0).
  destruct tr; (repeat split; try reflexivity);
    intros Hfresh; simpl;
    [unfold selectedVideoSegment | unfold selectedAudioSegment]; simpl;
    apply (findSegment_app_fresh _ []
             (Segment.mk (createId (idCount st)) (Asset.id asset) 0
                (defaultDuration asset) 0)); exact Hfresh.
Qed.

Lemma add_appends_and_selects_witness :
  exists segment,
    segmentsOf Audio (addToTimeline Scenario.ids Audio Scenario.song Scenario.cut)
    = segmentsOf Audio Scenario.cut ++ [segment]
    /\ selectedSegmentOf Audio
         (addToTimeline Scenario.ids Audio Scenario.song Scenario.cut)
       = Some segment.
Proof.
  destruct (add_appends_and_selects Scenario.ids Audio Scenario.song
              Scenario.cut) as (segment & Happ & _ & _ & _ & Hsel).
  exists segment; split; [exact Happ|].
  apply Hsel; intros s [].
Defined.

Lemma removeId_In (i : Id) (l : list Segment.t) (s : Segment.t) :
  In s (removeId i l) <-> In s l /\ Segment.id s <> i.
Proof.
  unfold removeId; rewrite filter_In.
  destruct (String.eqb_spec (Segment.id s) i) as [E|N]; simpl.
  - split; [intros [_ H]; discriminate | intros [_ H]; now elim H].
  - split; intros [H _]; split; auto.
Qed.

Lemma removeId_fixed (i : Id) (l : list Segment.t) :
  (forall y, In y l -> Segment.id y <> i) -> removeId i l = l.
Proof.
  induction l as [|y l IH]; intros H; simpl; [reflexivity|].
  destruct (String.eqb_spec (Segment.id y) i) as [E|_]; simpl.
  - exfalso; apply (H y); [now left | exact E].
  - f_equal; apply IH; intros z Hz; apply H; now right.
Qed.

Lemma removeId_middle (i : Id) (l1 l2 : list Segment.t) (s : Segment.t) :
  Segment.id s = i ->
  (forall y, In y (l1 ++ l2) -> Segment.id y <> i) ->
  removeId i (l1 ++ s :: l2) = l1 ++ l2.
Proof.
  intros Hs Hfree; unfold removeId.
  rewrite filter_app; simpl.
  rewrite Hs, String.eqb_refl; simpl.
  fold (removeId i l1); fold (removeId i l2).
  rewrite !removeId_fixed; [reflexivity| |];
    intros y Hy; apply Hfree, in_or_app; auto.
Qed.

Lemma segmentsOf_delete (tr : Track) (i : Id) (st : Editor) :
  segmentsOf tr (deleteSegment tr i st) = removeId i (segmentsOf tr st).
Proof.
  destruct tr; simpl;
    [unfold deleteVideoSegment | unfold deleteAudioSegment];
    destruct (idIs _ i); reflexivity.
Qed.

(** C6: deleting the selected id clears the selection of the track, deleting
    another id keeps it; in both cases exactly the segments of that id leave
    the collection and the others keep their order. *)
Theorem delete_updates_selection (tr : Track) (i : Id) (st : Editor) :
  (selectedIdOf tr st = Some i ->
   selectedIdOf tr (deleteSegment tr i st) = None)
  /\ (selectedIdOf tr st <> Some i ->
      selectedIdOf tr (deleteSegment tr i st) = selectedIdOf tr st)
  /\ (forall s, In s (segmentsOf tr (deleteSegment tr i st))
                <-> In s (segmentsOf tr st) /\ Segment.id s <> i)
  /\ (forall l1 s l2,
        segmentsOf tr st = l1 ++ s :: l2 -> Segment.id s = i ->
        (forall y, In y (l1 ++ l2) -> Segment.id y <> i) ->
        segmentsOf tr (deleteSegment tr i st) = l1 ++ l2).
Proof.
  split; [|split; [|split]].
  - intros Hsel; destruct tr; simpl in *;
      [unfold deleteVideoSegment | unfold deleteAudioSegment];
      rewrite Hsel; simpl; rewrite String.eqb_refl; reflexivity.
  - intros Hsel; destruct tr; simpl in *;
      [unfold deleteVideoSegment;
       destruct (selectedVideoSegmentId st) as [j|] eqn:E
      |unfold deleteAudioSegment;
       destruct (selectedAudioSegmentId st) as [j|] eqn:E];
      simpl; try (rewrite E; reflexivity);
      (destruct (String.eqb_spec j i) as [->|_];
       [now elim Hsel | simpl; rewrite E; reflexivity]).
  - intros s; rewrite segmentsOf_delete; apply removeId_In.
  - intros l1 s l2 Hl Hs Hfree.
    rewrite segmentsOf_delete, Hl; now apply removeId_middle.
Qed.

Lemma delete_updates_selection_witness :
  selectedIdOf Video (deleteSegment Video "c"%string Scenario.threeSegments)
  = None
  /\ selectedIdOf Video (deleteSegment Video "a"%string Scenario.threeSegments)
     = selectedIdOf Video Scenario.threeSegments
  /\ segmentsOf Video (deleteSegment Video "c"%string Scenario.threeSegments)
     = [Scenario.segA; Scenario.segB].
Proof.
  split; [|split].
  - apply (proj1 (delete_updates_selection Video "c"%string
                    Scenario.threeSegments)).
    reflexivity.
  - apply (proj1 (proj2 (delete_updates_selection Video "a"%string
                           Scenario.threeSegments))).
    discriminate.
  - apply (proj2 (proj2 (proj2 (delete_updates_selection Video "c"%string
                                  Scenario.threeSegments)))
             [Scenario.segA; Scenario.segB]
             (Segment.mk "c"%string "v"%string 0 12 0) []).
    + reflexivity.
    + reflexivity.
    + intros y [<-|[<-|[]]]; discriminate.
Defined.

(** ** Default fields of an added segment *)

Lemma withDuration_known (i : Id) (d : Q) (l : list Asset.t) (a : Asset.t) :
  In a (map (withDuration i d) l) -> Asset.id a = i ->
  Asset.duration a = Some d.
Proof.
  intros Hin Hid; apply in_map_iff in Hin; destruct Hin as [b [<- _]].
  unfold withDuration in *.
  destruct (String.eqb_spec (Asset.id b) i) as [_|N]; [reflexivity|].
  now elim N.
Qed.

(** C10: an asset whose duration is not known yet is added as the segment
    [sourceStart = 0], [duration = 10], [timelineStart = 0]; an asset of
    known duration [d] is added with [duration = d]; and after the metadata
    of asset [i] reported [d], every asset of that id in the registry has the
    known duration [d]. *)
Theorem add_default_fields (createId : nat -> Id) (tr : Track)
    (asset : Asset.t) (st : Editor) :
  (Asset.duration asset = None ->
   segmentsOf tr (addToTimeline createId tr asset st)
   = segmentsOf tr st
     ++ [Segment.mk (createId (idCount st)) (Asset.id asset) 0 10 0])
  /\ (forall d, Asset.duration asset = Some d ->
      segmentsOf tr (addToTimeline createId tr asset st)
      = segmentsOf tr st
        ++ [Segment.mk (createId (idCount st)) (Asset.id asset) 0 d 0])
  /\ (forall i d a,
        In a (assetsOf tr (handleLoadedMetadata tr i d st)) ->
        Asset.id a = i -> Asset.duration a = Some d).
Proof.
  split; [|split].
  - intros Hd; destruct tr; simpl;
      unfold defaultDuration; rewrite Hd; reflexivity.
  - intros d Hd; destruct tr; simpl;
      unfold defaultDuration; rewrite Hd; reflexivity.
  - intros i d a; destruct tr; simpl; apply withDuration_known.
Qed.

Lemma add_default_fields_witness :
  segmentsOf Audio (addToTimeline Scenario.ids Audio Scenario.song Scenario.cut)
  = [Segment.mk "d"%string "s"%string 0 10 0]
  /\ segmentsOf Video
       (addToTimeline Scenario.ids Video Scenario.clip Scenario.registered)
     = [Segment.mk "a"%string "v"%string 0 12 0]
  /\ Asset.duration Scenario.clip = Some 12.
Proof.
  split; [|split].
  - apply (proj1 (add_default_fields Scenario.ids Audio Scenario.song
                    Scenario.cut)).
    reflexivity.
  - apply (proj1 (proj2 (add_default_fields Scenario.ids Video Scenario.clip
                           Scenario.registered)) 12).
    reflexivity.
  - apply (proj2 (proj2 (add_default_fields Scenario.ids Video Scenario.clip
                           Scenario.uploaded))
             "v"%string 12 Scenario.clip).
    + left; reflexivity.
    + reflexivity.
Defined.

(** ** AutoCut *)

Lemma allHighlightSegments_nil (createId : nat -> Id) (assets : list Asset.t)
    (n : nat) :
  allHighlightSegments createId n [] assets = [].
Proof.
  revert n; induction assets as [|a assets IH]; intros n; simpl;
    [reflexivity | apply IH].
Qed.

Lemma setIdCount_same (st : Editor) : setIdCount (idCount st) st = st.
Proof. destruct st; reflexivity. Qed.

(** C7: AutoCut on an asset appends to the video track the three segments
    (sourceStart, duration) = (2,2), (6,1), (9,1) of that asset, all with
    [timelineStart = 0], and selects the id of the first of them; the
    selected segment is that first one as soon as its id is not already in
    the track; the audio track is untouched. *)
Theorem autocut_three_segments (createId : nat -> Id) (asset : Asset.t)
    (st : Editor) :
  videoSegments (handleAutoCutForAsset createId asset st)
  = videoSegments st
    ++ [Segment.mk (createId (idCount st)) (Asset.id asset) 2 2 0;
        Segment.mk (createId (S (idCount st))) (Asset.id asset) 6 1 0;
        Segment.mk (createId (S (S (idCount st)))) (Asset.id asset) 9 1 0]
  /\ selectedVideoSegmentId (handleAutoCutForAsset createId asset st)
     = Some (createId (idCount st))
  /\ ((forall s, In s (videoSegments st) ->
                 Segment.id s <> createId (idCount st)) ->
      selectedVideoSegment (handleAutoCutForAsset createId asset st)
      = Some (Segment.mk (createId (idCount st)) (Asset.id asset) 2 2 0))
  /\ audioSegments (handleAutoCutForAsset createId asset st)
     = audioSegments st.
Proof.
  repeat split.
  intros Hfresh.
  unfold selectedVideoSegment; simpl.
  apply (findSegment_app_fresh _ _
           (Segment.mk (createId (idCount st)) (Asset.id asset) 2 2 0)).
  exact Hfresh.
Qed.

Lemma autocut_three_segments_witness :
  videoSegments Scenario.cut
  = [Segment.mk "a"%string "v"%string 2 2 0;
     Segment.mk "b"%string "v"%string 6 1 0;
     Segment.mk "c"%string "v"%string 9 1 0]
  /\ selectedVideoSegment Scenario.cut
     = Some (Segment.mk "a"%string "v"%string 2 2 0).
Proof.
  split.
  - apply (proj1 (autocut_three_segments Scenario.ids Scenario.clip
                    Scenario.registered)).
  - apply (proj1 (proj2 (proj2 (autocut_three_segments Scenario.ids
                                  Scenario.clip Scenario.registered)))).
    intros s [].
Defined.

(** C8: with an empty highlight list AutoCut, for one asset or for all of
    them, leaves the whole editor state, and so the video segments and the
    video selection, as it was. *)
Theorem empty_highlights_change_nothing (createId : nat -> Id)
    (asset : Asset.t) (st : Editor) :
  applyHighlights createId [] asset st = st
  /\ applyHighlightsAll createId [] st = st.
Proof.
  split.
  - unfold applyHighlights; simpl.
    rewrite Nat.add_0_r; apply setIdCount_same.
  - unfold applyHighlightsAll.
    destruct (videoAssets st) as [|a assets] eqn:E; [reflexivity|].
    rewrite allHighlightSegments_nil.
    rewrite Nat.mul_0_r, Nat.add_0_r; apply setIdCount_same.
Qed.

(** ** Playback *)

Lemma togglePlayback_without_selection (st : Editor) :
  selectedVideoSegmentId st = None -> togglePlayback st = st.
Proof.
  intros Hsel.
  unfold togglePlayback, videoRef_current, selectedVideoAsset,
    selectedVideoSegment.
  rewrite Hsel; reflexivity.
Qed.

Lemma toggleAudioPlayback_without_selection (st : Editor) :
  selectedAudioSegmentId st = None -> toggleAudioPlayback st = st.
Proof.
  intros Hsel.
  unfold toggleAudioPlayback, audioRef_current, selectedAudioAsset,
    selectedAudioSegment.
  rewrite Hsel; reflexivity.
Qed.

Lemma sort_pair (A B : Segment.t) :
  Segment.timelineStart A <= Segment.timelineStart B ->
  sortByTimelineStart [A; B] = [A; B].
Proof.
  intros H; unfold sortByTimelineStart; simpl.
  apply Qle_bool_iff in H; now rewrite H.
Qed.

(** With a video element attached, the chain of the scheduler on two segments
    A (timelineStart 0, duration 3) and B (timelineStart 5, duration 2):
    play selects A, the end of A selects B, the end of B pauses and stops. *)
Lemma playback_chain_with_element (el : Asset.t) (st : Editor)
    (A B : Segment.t) (t1 t2 : Q) :
  videoSegments st = [A; B] ->
  Segment.id A <> Segment.id B ->
  Segment.timelineStart A == 0 -> Segment.timelineStart B == 5 ->
  Segment.duration A == 3 -> Segment.duration B == 2 ->
  selectedVideoSegmentId st = None -> isPlaying st = false ->
  Segment.sourceStart A + 3 <= t1 ->
  Segment.sourceStart B + 2 <= t2 ->
  let st1 := togglePlaybackOn (Some el) st in
  let st2 := onTimeUpdateOn (Some el) t1 st1 in
  let st3 := onTimeUpdateOn (Some el) t2 st2 in
  (selectedVideoSegmentId st1 = Some (Segment.id A) /\ isPlaying st1 = true)
  /\ (selectedVideoSegmentId st2 = Some (Segment.id B) /\ isPlaying st2 = true)
  /\ (isPlaying st3 = false /\ videoLog st3 = videoLog st ++ [Pause]).
Proof.
  intros Hsegs Hne HtA HtB HdA HdB Hsel Hplay Ht1 Ht2.
  assert (Hsort : sortByTimelineStart [A; B] = [A; B])
    by (apply sort_pair; rewrite HtA, HtB; discriminate).
  assert (HneAB : String.eqb (Segment.id A) (Segment.id B) = false)
    by now apply String.eqb_neq.
  assert (HendA : Qle_bool (Segment.sourceStart A + Segment.duration A) t1
                  = true)
    by (apply Qle_bool_iff; rewrite HdA; exact Ht1).
  assert (HendB : Qle_bool (Segment.sourceStart B + Segment.duration B) t2
                  = true)
    by (apply Qle_bool_iff; rewrite HdB; exact Ht2).
  destruct st as [vas aas vs asg pl sv sa apl ds rs n vl al].
  simpl in Hsegs, Hsel, Hplay; subst vs sv pl.
  cbv zeta.
  assert (E1 : togglePlaybackOn (Some el)
                 (mkEditor vas aas [A; B] asg false None sa apl ds rs n vl al)
               = mkEditor vas aas [A; B] asg true (Some (Segment.id A)) sa apl
                   ds rs n vl al).
  { unfold togglePlaybackOn, selectedVideoSegment.
    cbn -[sortByTimelineStart]; rewrite Hsort; reflexivity. }
  rewrite E1.
  assert (E2 : onTimeUpdateOn (Some el) t1
                 (mkEditor vas aas [A; B] asg true (Some (Segment.id A)) sa apl
                    ds rs n vl al)
               = mkEditor vas aas [A; B] asg true (Some (Segment.id B)) sa apl
                   ds rs n vl al).
  { unfold onTimeUpdateOn, getNextVideoSegment, selectedVideoSegment, nextAfter.
    cbn -[sortByTimelineStart Qle_bool Qplus].
    rewrite String.eqb_refl, HendA, Hsort.
    cbn -[Qle_bool Qplus]; rewrite String.eqb_refl; reflexivity. }
  rewrite E2.
  assert (E3 : onTimeUpdateOn (Some el) t2
                 (mkEditor vas aas [A; B] asg true (Some (Segment.id B)) sa apl
                    ds rs n vl al)
               = mkEditor vas aas [A; B] asg false (Some (Segment.id B)) sa apl
                   ds rs n (vl ++ [Pause]) al).
  { unfold onTimeUpdateOn, getNextVideoSegment, selectedVideoSegment, nextAfter.
    cbn -[sortByTimelineStart Qle_bool Qplus].
    rewrite HneAB, String.eqb_refl, HendB, Hsort.
    cbn -[Qle_bool Qplus]; rewrite HneAB, String.eqb_refl; reflexivity. }
  rewrite E3; simpl; repeat split.
Qed.

(** In the component, the same chain once A was selected by a click on it
    (which attaches the video element): play, end of A, end of B. *)
Lemma playback_chain_after_click :
  let clicked :=
    setSelectedVideoSegmentId (Some "a"%string) Scenario.twoSegments in
  let st1 := togglePlayback clicked in
  let st2 := onTimeUpdate 3 st1 in
  let st3 := onTimeUpdate 2 st2 in
  (selectedVideoSegmentId st1 = Some "a"%string /\ isPlaying st1 = true)
  /\ (selectedVideoSegmentId st2 = Some "b"%string /\ isPlaying st2 = true)
  /\ (isPlaying st3 = false /\ videoLog st3 = [Pause]).
Proof. vm_compute; repeat split. Qed.

(** C9 (evaluated on the code): with A and B on the video track, nothing
    selected and playback stopped, no video element is attached (the render
    function mounts it only for a selected asset), so [togglePlayback] returns
    at once: A is not selected and playback does not start. *)
Theorem togglePlayback_needs_selection :
  videoSegments Scenario.twoSegments = [Scenario.segA; Scenario.segB]
  /\ selectedVideoSegmentId Scenario.twoSegments = None
  /\ isPlaying Scenario.twoSegments = false
  /\ videoRef_current Scenario.twoSegments = None
  /\ togglePlayback Scenario.twoSegments = Scenario.twoSegments
  /\ selectedVideoSegmentId (togglePlayback Scenario.twoSegments) = None
  /\ isPlaying (togglePlayback Scenario.twoSegments) = false.
Proof. vm_compute; repeat split. Qed.

(** * Further properties of the component *)

(** ** End of the timeline *)

Lemma laterEnd_fold (l : list Segment.t) (e : Q) :
  e <= fold_left laterEnd l e
  /\ (forall s, In s l ->
        Segment.timelineStart s + Segment.duration s <= fold_left laterEnd l e)
  /\ (fold_left laterEnd l e = e
      \/ exists s, In s l
           /\ fold_left laterEnd l e
              = Segment.timelineStart s + Segment.duration s).
Proof.
  revert e; induction l as [|x l IH]; intros e; simpl.
  - split; [apply Qle_refl|]; split; [intros s []|now left].
  - destruct (IH (laterEnd e x)) as (Hge & Hall & Hwho).
    assert (Hstep : e <= laterEnd e x
                    /\ Segment.timelineStart x + Segment.duration x
                       <= laterEnd e x).
    { unfold laterEnd; cbv zeta.
      destruct (Qle_bool (Segment.timelineStart x + Segment.duration x) e)
        eqn:E.
      - apply Qle_bool_iff in E; split; [apply Qle_refl|exact E].
      - split; [|apply Qle_refl].
        destruct (Qlt_le_dec e
                    (Segment.timelineStart x + Segment.duration x))
          as [Hlt|Hle]; [now apply Qlt_le_weak|].
        apply Qle_bool_iff in Hle; congruence. }
    destruct Hstep as [He Hx].
    split; [eapply Qle_trans; eassumption|].
    split.
    + intros s [<-|Hs]; [eapply Qle_trans; eassumption|now apply Hall].
    + destruct Hwho as [Heq|(s & Hs & Heq)].
      * rewrite Heq; unfold laterEnd; cbv zeta.
        destruct (Qle_bool _ e); [now left|].
        right; exists x; split; [now left|reflexivity].
      * right; exists s; split; [now right|exact Heq].
Qed.

(** The end of the video timeline is never negative, is at or after the end
    of every segment, and is 0 or the end of one of the segments. *)
Theorem timelineEnd_is_latest_end (segments : list Segment.t) :
  0 <= getVideoTimelineEnd segments
  /\ (forall s, In s segments ->
        Segment.timelineStart s + Segment.duration s
        <= getVideoTimelineEnd segments)
  /\ (getVideoTimelineEnd segments = 0
      \/ exists s, In s segments
           /\ getVideoTimelineEnd segments
              = Segment.timelineStart s + Segment.duration s).
Proof. apply laterEnd_fold. Qed.

(** ** Timeline order *)

(** Sorting by [timelineStart] keeps exactly the segments it was given and
    puts them in ascending order of [timelineStart]. *)
Theorem sort_orders_the_same_segments (l : list Segment.t) :
  Permutation l (sortByTimelineStart l)
  /\ Sorted byTimelineStart (sortByTimelineStart l).
Proof.
  split; [apply sortByTimelineStart_perm | apply sortByTimelineStart_sorted].
Qed.

Lemma insertByTimelineStart_filter (t : Q) (x : Segment.t)
    (l : list Segment.t) :
  filter (fun s => Qeq_bool (Segment.timelineStart s) t)
    (insertByTimelineStart x l)
  = filter (fun s => Qeq_bool (Segment.timelineStart s) t) (x :: l).
Proof.
  induction l as [|y l IH]; [reflexivity|].
  cbn [insertByTimelineStart].
  destruct (Qle_bool (Segment.timelineStart x) (Segment.timelineStart y))
    eqn:E; [reflexivity|].
  cbn [filter] in *; rewrite IH.
  destruct (Qeq_bool (Segment.timelineStart x) t) eqn:Ex; [|reflexivity].
  destruct (Qeq_bool (Segment.timelineStart y) t) eqn:Ey; [|reflexivity].
  apply Qeq_bool_iff in Ex, Ey.
  assert (Hle : Segment.timelineStart x <= Segment.timelineStart y)
    by (rewrite Ex, Ey; apply Qle_refl).
  apply Qle_bool_iff in Hle; congruence.
Qed.

(** The sort is stable: the segments that start at the same time [t] come
    out in the order they were in. *)
Theorem sort_is_stable (t : Q) (l : list Segment.t) :
  filter (fun s => Qeq_bool (Segment.timelineStart s) t)
    (sortByTimelineStart l)
  = filter (fun s => Qeq_bool (Segment.timelineStart s) t) l.
Proof.
  induction l as [|x l IH]; [reflexivity|].
  change (sortByTimelineStart (x :: l))
    with (insertByTimelineStart x (sortByTimelineStart l)).
  rewrite insertByTimelineStart_filter.
  cbn [filter]; now rewrite IH.
Qed.

(** ** Gestures, in pixels *)

Lemma Qmax_scale (a k : Q) : 0 < k -> Qmax 0 a * k == Qmax 0 (a * k).
Proof.
  intros Hk.
  destruct (Q.max_spec 0 a) as [[Hlt ->]|[Hle ->]].
  - symmetry; apply Q.max_r; nra.
  - symmetry; rewrite Q.max_l; [ring | nra].
Qed.

Lemma pixels_of_delta (d : Q) : d / PIXELS_PER_SECOND * PIXELS_PER_SECOND == d.
Proof. unfold PIXELS_PER_SECOND; field. Qed.

(** A dragged segment follows the pointer: after grabbing segment [seg] at
    [x0] and moving the pointer to [x], its left border on the timeline is
    its old left border plus [x - x0] pixels, or the origin if that would be
    left of it; its width does not change. *)
Theorem drag_follows_pointer (tr : Track) (st : Editor) (seg : Segment.t)
    (i : nat) (x0 x : Q) :
  nth_error (segmentsOf tr st) i = Some seg ->
  resizeState st = None ->
  exists seg',
    nth_error
      (segmentsOf tr
         (installedOnMouseMove x
            (onSegmentMouseDown x0 (Segment.id seg)
               (Segment.timelineStart seg) st)))
      i = Some seg'
    /\ marginLeft seg' == Qmax 0 (marginLeft seg + (x - x0))
    /\ width seg' = width seg.
Proof.
  intros Hnth Hr.
  unfold installedOnMouseMove, onMouseMove, onResize.
  replace (resizeState
             (onDrag x
                (onSegmentMouseDown x0 (Segment.id seg)
                   (Segment.timelineStart seg) st)))
    with (@None Resize.t) by (simpl; now rewrite Hr).
  rewrite (segmentsOf_onDrag tr x _
             (Drag.mk (Some (Segment.id seg)) x0 (Segment.timelineStart seg)))
    by reflexivity.
  replace (segmentsOf tr
             (onSegmentMouseDown x0 (Segment.id seg)
                (Segment.timelineStart seg) st))
    with (segmentsOf tr st) by (destruct tr; reflexivity).
  rewrite nth_error_map, Hnth; simpl option_map.
  eexists; split; [reflexivity|].
  unfold dragSegment; cbn [Drag.id Drag.initialX Drag.initialOffset].
  rewrite idIs_Some, String.eqb_refl.
  split; [|reflexivity].
  unfold marginLeft, Math_max; cbn [Segment.withTimelineStart
                                      Segment.timelineStart].
  rewrite Qmax_scale by reflexivity.
  apply Q.max_compat; [reflexivity|].
  rewrite Qmult_plus_distr_l, pixels_of_delta; reflexivity.
Qed.

Lemma drag_follows_pointer_witness :
  exists seg',
    nth_error
      (segmentsOf Video
         (installedOnMouseMove 20
            (onSegmentMouseDown 100 "b"%string 0 Scenario.cut)))
      1 = Some seg'
    /\ marginLeft seg' == Qmax 0 (0 * PIXELS_PER_SECOND + (20 - 100))
    /\ width seg' = width (Segment.mk "b"%string "v"%string 6 1 0).
Proof.
  apply (drag_follows_pointer Video Scenario.cut
           (Segment.mk "b"%string "v"%string 6 1 0) 1 100 20);
    reflexivity.
Defined.

(** The right handle follows the pointer: after grabbing the right handle of
    segment [seg] at [x0] and moving the pointer to [x], the segment is as
    wide as before plus [x - x0] pixels, but at least 8 pixels and, when the
    handler sees an asset duration [D], at most what is left of the asset
    after [sourceStart] unless that is under 8 pixels; its left border and
    its [sourceStart] do not move. *)
Theorem right_handle_follows_pointer (tr : Track) (vA aA : list Asset.t)
    (st : Editor) (seg : Segment.t) (i : nat) (x0 x : Q) :
  nth_error (segmentsOf tr st) i = Some seg ->
  exists seg',
    nth_error
      (segmentsOf tr
         (onResize vA aA x (onHandleMouseDown EdgeRight x0 seg st)))
      i = Some seg'
    /\ width seg'
       == Qmax 8
            match assetMax (seenBy tr vA aA) seg with
            | Infinity => width seg + (x - x0)
            | Fin D =>
                Qmin (width seg + (x - x0))
                  ((D - Segment.sourceStart seg) * PIXELS_PER_SECOND)
            end
    /\ marginLeft seg' = marginLeft seg
    /\ Segment.sourceStart seg' = Segment.sourceStart seg.
Proof.
  intros Hnth.
  set (r := Resize.mk (Some (Segment.id seg)) EdgeRight x0
              (Segment.sourceStart seg) (Segment.duration seg)).
  rewrite (segmentsOf_onResize tr vA aA x _ r) by reflexivity.
  replace (segmentsOf tr (onHandleMouseDown EdgeRight x0 seg st))
    with (segmentsOf tr st) by (destruct tr; reflexivity).
  rewrite nth_error_map, Hnth; simpl option_map.
  eexists; split; [reflexivity|].
  unfold resizeSegment.
  replace (idIs (Resize.id r) (Segment.id seg)) with true
    by (simpl; now rewrite String.eqb_refl).
  cbn [negb Resize.edge Resize.initialX Resize.initialSourceStart
       Resize.initialDuration r].
  split; [|split; reflexivity].
  unfold width, Math_max; cbn [Segment.withSource Segment.duration].
  set (delta := (x - x0) / PIXELS_PER_SECOND).
  assert (Hdelta : delta * PIXELS_PER_SECOND == x - x0)
    by apply pixels_of_delta.
  unfold PIXELS_PER_SECOND in *.
  destruct (assetMax (seenBy tr vA aA) seg) as [D|]; simpl Num_sub;
    unfold Math_min.
  - pose proof (Q.min_spec (Segment.duration seg + delta)
                  (D - Segment.sourceStart seg)) as Hm.
    pose proof (Q.max_spec 0.1
                  (Qmin (Segment.duration seg + delta)
                     (D - Segment.sourceStart seg))) as HM.
    pose proof (Q.min_spec (Segment.duration seg * 80 + (x - x0))
                  ((D - Segment.sourceStart seg) * 80)) as Hm'.
    pose proof (Q.max_spec 8
                  (Qmin (Segment.duration seg * 80 + (x - x0))
                     ((D - Segment.sourceStart seg) * 80))) as HM'.
    set (m := Qmin (Segment.duration seg + delta)
                (D - Segment.sourceStart seg)) in *.
    set (M := Qmax 0.1 m) in *.
    set (m' := Qmin (Segment.duration seg * 80 + (x - x0))
                 ((D - Segment.sourceStart seg) * 80)) in *.
    set (M' := Qmax 8 m') in *.
    clearbody M M' m m' delta.
    destruct Hm as [[? ?]|[? ?]], HM as [[? ?]|[? ?]],
      Hm' as [[? ?]|[? ?]], HM' as [[? ?]|[? ?]]; lra.
  - pose proof (Q.max_spec 0.1 (Segment.duration seg + delta)) as HM.
    pose proof (Q.max_spec 8 (Segment.duration seg * 80 + (x - x0))) as HM'.
    set (M := Qmax 0.1 (Segment.duration seg + delta)) in *.
    set (M' := Qmax 8 (Segment.duration seg * 80 + (x - x0))) in *.
    clearbody M M' delta.
    destruct HM as [[? ?]|[? ?]], HM' as [[? ?]|[? ?]]; lra.
Qed.

Lemma right_handle_follows_pointer_witness :
  exists seg',
    nth_error
      (segmentsOf Video
         (onResize (videoAssets Scenario.cut) [] 180
            (onHandleMouseDown EdgeRight 100 Scenario.cutA Scenario.cut)))
      0 = Some seg'
    /\ width seg'
       == Qmax 8
            match
              assetMax (seenBy Video (videoAssets Scenario.cut) [])
                Scenario.cutA
            with
            | Infinity => width Scenario.cutA + (180 - 100)
            | Fin D =>
                Qmin (width Scenario.cutA + (180 - 100))
                  ((D - Segment.sourceStart Scenario.cutA)
                   * PIXELS_PER_SECOND)
            end
    /\ marginLeft seg' = marginLeft Scenario.cutA
    /\ Segment.sourceStart seg' = Segment.sourceStart Scenario.cutA.
Proof.
  refine (right_handle_follows_pointer Video (videoAssets Scenario.cut) []
            Scenario.cut Scenario.cutA 0 100 180 _).
  reflexivity.
Defined.

(** ** Gestures depend on the last pointer position only *)

Lemma dragSegment_id (d : Drag.t) (u : Q) (s : Segment.t) :
  Segment.id (dragSegment d u s) = Segment.id s.
Proof. unfold dragSegment; destruct (idIs _ _); reflexivity. Qed.

Lemma dragSegment_twice (d : Drag.t) (u1 u2 : Q) (s : Segment.t) :
  dragSegment d u2 (dragSegment d u1 s) = dragSegment d u2 s.
Proof.
  unfold dragSegment at 1 3; rewrite dragSegment_id.
  destruct (idIs (Drag.id d) (Segment.id s)) eqn:E; unfold dragSegment;
    rewrite E; reflexivity.
Qed.

Lemma resizeSegment_twice (assets : list Asset.t) (r : Resize.t) (d1 d2 : Q)
    (s : Segment.t) :
  resizeSegment assets r d2 (resizeSegment assets r d1 s)
  = resizeSegment assets r d2 s.
Proof.
  unfold resizeSegment at 1 3; rewrite resizeSegment_id.
  destruct (idIs (Resize.id r) (Segment.id s)) eqn:E; unfold resizeSegment;
    rewrite E; reflexivity.
Qed.

Lemma drag_resize_commute (assets : list Asset.t) (d : Drag.t) (u : Q)
    (r : Resize.t) (delta : Q) (s : Segment.t) :
  dragSegment d u (resizeSegment assets r delta s)
  = resizeSegment assets r delta (dragSegment d u s).
Proof.
  unfold dragSegment, resizeSegment.
  destruct (idIs (Drag.id d) (Segment.id s)) eqn:Ed,
    (idIs (Resize.id r) (Segment.id s)) eqn:Er;
    cbn [negb Segment.id Segment.withSource Segment.withTimelineStart];
    rewrite ?Ed, ?Er; reflexivity.
Qed.

Lemma Editor_ext (a b : Editor) :
  videoAssets a = videoAssets b -> audioAssets a = audioAssets b ->
  videoSegments a = videoSegments b -> audioSegments a = audioSegments b ->
  isPlaying a = isPlaying b ->
  selectedVideoSegmentId a = selectedVideoSegmentId b ->
  selectedAudioSegmentId a = selectedAudioSegmentId b ->
  isAudioPlaying a = isAudioPlaying b ->
  dragState a = dragState b -> resizeState a = resizeState b ->
  idCount a = idCount b -> videoLog a = videoLog b ->
  audioLog a = audioLog b ->
  a = b.
Proof. destruct a, b; simpl; intros; subst; reflexivity. Qed.

Ltac project_editor :=
  lazy beta iota zeta delta
    [videoAssets audioAssets videoSegments audioSegments isPlaying
     selectedVideoSegmentId selectedAudioSegmentId isAudioPlaying
     dragState resizeState idCount videoLog audioLog
     setVideoAssets setAudioAssets setVideoSegments setAudioSegments
     setIsPlaying setSelectedVideoSegmentId setSelectedAudioSegmentId
     setIsAudioPlaying setDragState setResizeState setIdCount
     sendVideo sendAudio].

(** While a gesture lasts, what a pointer move writes depends on the pointer
    position only, not on the moves before it: two moves in a row leave the
    state the second alone would. *)
Theorem last_move_wins (vA aA : list Asset.t) (x1 x2 : Q) (st : Editor) :
  onMouseMove vA aA x2 (onMouseMove vA aA x1 st) = onMouseMove vA aA x2 st.
Proof.
  destruct st as [vas aas vs asg pl sv sa apl ds rs n vl al].
  unfold onMouseMove, onResize, onDrag.
  destruct ds as [d|], rs as [r|]; project_editor;
    apply Editor_ext; project_editor; try reflexivity;
    rewrite !map_map; apply map_ext; intros s.
  - now rewrite drag_resize_commute, resizeSegment_twice, dragSegment_twice.
  - now rewrite drag_resize_commute, resizeSegment_twice, dragSegment_twice.
  - apply dragSegment_twice.
  - apply dragSegment_twice.
  - apply resizeSegment_twice.
  - apply resizeSegment_twice.
Qed.

(** Releasing the pointer ends both gestures: the pointer moves that follow
    it, however many and wherever they go, change nothing. *)
Theorem moves_after_release_change_nothing (vA aA : list Asset.t)
    (xs : list Q) (st : Editor) :
  fold_left (fun s x => onMouseMove vA aA x s) xs (onMouseUp st)
  = onMouseUp st.
Proof.
  induction xs as [|x xs IH]; [reflexivity|].
  simpl fold_left.
  replace (onMouseMove vA aA x (onMouseUp st)) with (onMouseUp st)
    by reflexivity.
  exact IH.
Qed.

(** ** The edit form *)

Lemma applyPatch_formPatch (f : FormField) (v : Q) (s : Segment.t) :
  applyPatch (formPatch f v) s = withField f v s.
Proof. destruct f; reflexivity. Qed.

Lemma updateSegments_form (o : option Id) (i : Id) (f : FormField) (v : Q)
    (l : list Segment.t) :
  o = Some i ->
  updateSegments i (formPatch f v) l
  = map (fun s => if idIs o (Segment.id s) then withField f v s else s) l.
Proof.
  intros ->; unfold updateSegments; apply map_ext; intros s.
  rewrite idIs_Some, applyPatch_formPatch; reflexivity.
Qed.

Lemma map_untouched (o : option Id) (g : Segment.t -> Segment.t)
    (l : list Segment.t) :
  (forall s, In s l -> idIs o (Segment.id s) = false) ->
  map (fun s => if idIs o (Segment.id s) then g s else s) l = l.
Proof.
  intros H; rewrite <- (map_id l) at 2.
  apply map_ext_in; intros s Hs; now rewrite (H s Hs).
Qed.

Lemma editSegment_effect (tr : Track) (f : FormField) (v : Q)
    (st : Editor) :
  segmentsOf tr (editSegment tr f v st)
  = map (fun s =>
           if idIs (selectedIdOf tr st) (Segment.id s)
           then withField f v s else s)
      (segmentsOf tr st)
  /\ selectedIdOf tr (editSegment tr f v st) = selectedIdOf tr st
  /\ segmentsOf (match tr with Video => Audio | Audio => Video end)
       (editSegment tr f v st)
     = segmentsOf (match tr with Video => Audio | Audio => Video end) st.
Proof.
  assert (Hfind : forall l i,
             match find (fun s => String.eqb (Segment.id s) i) l with
             | Some sel => Segment.id sel = i
             | None => forall s, In s l -> idIs (Some i) (Segment.id s) = false
             end).
  { intros l i.
    destruct (find (fun s => String.eqb (Segment.id s) i) l) as [sel|] eqn:F.
    - apply find_some in F; now apply String.eqb_eq.
    - intros s Hs; rewrite idIs_Some.
      exact (find_none _ _ F s Hs). }
  destruct tr; unfold editSegment; cbn [selectedSegmentOf selectedIdOf].
  - unfold selectedVideoSegment, findSegment.
    destruct (selectedVideoSegmentId st) as [i|] eqn:Hsel.
    + specialize (Hfind (videoSegments st) i).
      destruct (find _ (videoSegments st)) as [sel|].
      * split; [|split; [exact Hsel|reflexivity]].
        cbn [segmentsOf]; unfold updateVideoSegment.
        change (videoSegments (setVideoSegments ?g st))
          with (g (videoSegments st)).
        rewrite Hfind; now apply updateSegments_form.
      * split; [|split; [exact Hsel|reflexivity]].
        cbn [segmentsOf]; symmetry; now apply map_untouched.
    + split; [|split; [exact Hsel|reflexivity]].
      cbn [segmentsOf]; symmetry; now apply map_untouched.
  - unfold selectedAudioSegment, findSegment.
    destruct (selectedAudioSegmentId st) as [i|] eqn:Hsel.
    + specialize (Hfind (audioSegments st) i).
      destruct (find _ (audioSegments st)) as [sel|].
      * split; [|split; [exact Hsel|reflexivity]].
        cbn [segmentsOf]; unfold updateAudioSegment.
        change (audioSegments (setAudioSegments ?g st))
          with (g (audioSegments st)).
        rewrite Hfind; now apply updateSegments_form.
      * split; [|split; [exact Hsel|reflexivity]].
        cbn [segmentsOf]; symmetry; now apply map_untouched.
    + split; [|split; [exact Hsel|reflexivity]].
      cbn [segmentsOf]; symmetry; now apply map_untouched.
Qed.

(** Typing a number into a field of the edit form writes that number, as it
    is and without any clamp, into the field of the segments that bear the
    selected id; the other fields, the other segments, the other track and
    the selection stay as they are. *)
Theorem edit_writes_the_typed_number (tr : Track) (f : FormField) (v : Q)
    (st : Editor) :
  segmentsOf tr (editSegment tr f v st)
  = map (fun s =>
           if idIs (selectedIdOf tr st) (Segment.id s)
           then withField f v s else s)
      (segmentsOf tr st)
  /\ selectedIdOf tr (editSegment tr f v st) = selectedIdOf tr st
  /\ segmentsOf (match tr with Video => Audio | Audio => Video end)
       (editSegment tr f v st)
     = segmentsOf (match tr with Video => Audio | Audio => Video end) st.
Proof. apply editSegment_effect. Qed.

(** ** Deleting *)

Lemma removeId_twice (i : Id) (l : list Segment.t) :
  removeId i (removeId i l) = removeId i l.
Proof.
  apply removeId_fixed; intros y Hy; now apply removeId_In in Hy.
Qed.

Lemma idIs_spec (o : option Id) (i : Id) :
  idIs o i = true <-> o = Some i.
Proof.
  destruct o as [j|]; simpl; [|split; discriminate].
  rewrite String.eqb_eq; split; [now intros -> | now intros [= ->]].
Qed.

(** Deleting is idempotent, and deleting an id that no segment of the track
    bears and that is not selected changes nothing at all. *)
Theorem delete_again_changes_nothing (tr : Track) (i : Id) (st : Editor) :
  deleteSegment tr i (deleteSegment tr i st) = deleteSegment tr i st
  /\ ((forall s, In s (segmentsOf tr st) -> Segment.id s <> i) ->
      selectedIdOf tr st <> Some i ->
      deleteSegment tr i st = st).
Proof.
  destruct st as [vas aas vs asg pl sv sa apl ds rs n vl al].
  split.
  - destruct tr; cbn [deleteSegment];
      [unfold deleteVideoSegment | unfold deleteAudioSegment];
      project_editor.
    + destruct (idIs sv i) eqn:E; cbn [idIs]; rewrite ?E;
        project_editor; now rewrite removeId_twice.
    + destruct (idIs sa i) eqn:E; cbn [idIs]; rewrite ?E;
        project_editor; now rewrite removeId_twice.
  - intros Hfree Hsel.
    destruct tr; cbn [deleteSegment segmentsOf selectedIdOf videoSegments
                      audioSegments selectedVideoSegmentId
                      selectedAudioSegmentId] in *;
      [unfold deleteVideoSegment | unfold deleteAudioSegment];
      project_editor.
    + destruct (idIs sv i) eqn:E;
        [apply idIs_spec in E; now elim Hsel|].
      now rewrite removeId_fixed.
    + destruct (idIs sa i) eqn:E;
        [apply idIs_spec in E; now elim Hsel|].
      now rewrite removeId_fixed.
Qed.

Lemma delete_again_changes_nothing_witness :
  deleteSegment Video "z"%string Scenario.cut = Scenario.cut.
Proof.
  apply (proj2 (delete_again_changes_nothing Video "z"%string Scenario.cut)).
  - intros s [<-|[<-|[<-|[]]]]; discriminate.
  - discriminate.
Defined.

Lemma removeId_app (i : Id) (l1 l2 : list Segment.t) :
  removeId i (l1 ++ l2) = removeId i l1 ++ removeId i l2.
Proof. apply filter_app. Qed.

(** Deleting the segment that was just added gives back the collection as it
    was before, provided the new id was not in use, but not the selection:
    nothing is selected afterwards, whatever was selected before. *)
Theorem add_then_delete (createId : nat -> Id) (tr : Track) (asset : Asset.t)
    (st : Editor) :
  (forall s, In s (segmentsOf tr st) ->
             Segment.id s <> createId (idCount st)) ->
  segmentsOf tr
    (deleteSegment tr (createId (idCount st))
       (addToTimeline createId tr asset st))
  = segmentsOf tr st
  /\ selectedIdOf tr
       (deleteSegment tr (createId (idCount st))
          (addToTimeline createId tr asset st))
     = None.
Proof.
  intros Hfresh; split.
  - rewrite segmentsOf_delete.
    replace (segmentsOf tr (addToTimeline createId tr asset st))
      with (segmentsOf tr st
            ++ [Segment.mk (createId (idCount st)) (Asset.id asset) 0
                  (defaultDuration asset) 0])
      by (destruct tr; reflexivity).
    rewrite removeId_app, (removeId_fixed _ _ Hfresh).
    unfold removeId; cbn [filter Segment.id].
    rewrite String.eqb_refl; apply app_nil_r.
  - destruct tr; cbn [deleteSegment selectedIdOf addToTimeline];
      [unfold deleteVideoSegment, addVideoToTimeline
      |unfold deleteAudioSegment, addAudioToTimeline];
      cbv zeta; project_editor; cbn [idIs Segment.id];
      rewrite String.eqb_refl; reflexivity.
Qed.

Lemma add_then_delete_witness :
  segmentsOf Video
    (deleteSegment Video (Scenario.ids (idCount Scenario.cut))
       (addToTimeline Scenario.ids Video Scenario.clip Scenario.cut))
  = segmentsOf Video Scenario.cut
  /\ selectedIdOf Video
       (deleteSegment Video (Scenario.ids (idCount Scenario.cut))
          (addToTimeline Scenario.ids Video Scenario.clip Scenario.cut))
     = None.
Proof.
  apply (add_then_delete Scenario.ids Video Scenario.clip Scenario.cut).
  intros s [<-|[<-|[<-|[]]]]; discriminate.
Defined.

(** ** The asset registry *)


Lemma withDuration_frame (i : Id) (d : Q) (a : Asset.t) :
  Asset.id (withDuration i d a) = Asset.id a
  /\ Asset.name (withDuration i d a) = Asset.name a
  /\ Asset.url (withDuration i d a) = Asset.url a
  /\ (Asset.id a <> i -> withDuration i d a = a).
Proof.
  unfold withDuration.
  destruct (String.eqb_spec (Asset.id a) i) as [E|N]; repeat split;
    intros H; now elim H.
Qed.


Lemma newAssets_fields (createId : nat -> Id) (files : list File.t) (n : nat) :
  map Asset.id (newAssets createId n files)
  = map createId (seq n (List.length files))
  /\ map Asset.name (newAssets createId n files) = map File.name files
  /\ map Asset.url (newAssets createId n files) = map File.url files
  /\ Forall (fun a => Asset.duration a = None) (newAssets createId n files).
Proof.
  revert n; induction files as [|f files IH]; intros n; simpl.
  - repeat split; constructor.
  - destruct (IH (S n)) as (H1 & H2 & H3 & H4).
    rewrite H1, H2, H3; repeat split; now constructor.
Qed.

(** An upload keeps the registry as it is and puts after it one asset per
    file, in the order of the files, with the name and URL of the file, a
    new id and no duration yet; it touches neither the other registry nor
    the segments; and without files (none chosen, or an empty list) it
    changes nothing. *)
Theorem upload_appends_assets (createId : nat -> Id) (tr : Track)
    (files : list File.t) (st : Editor) :
  handleUpload createId tr None st = st
  /\ handleUpload createId tr (Some []) st = st
  /\ exists new,
       assetsOf tr (handleUpload createId tr (Some files) st)
       = assetsOf tr st ++ new
       /\ map Asset.id new = map createId (seq (idCount st) (List.length files))
       /\ map Asset.name new = map File.name files
       /\ map Asset.url new = map File.url files
       /\ Forall (fun a => Asset.duration a = None) new
       /\ assetsOf (match tr with Video => Audio | Audio => Video end)
            (handleUpload createId tr (Some files) st)
          = assetsOf (match tr with Video => Audio | Audio => Video end) st
       /\ videoSegments (handleUpload createId tr (Some files) st)
          = videoSegments st
       /\ audioSegments (handleUpload createId tr (Some files) st)
          = audioSegments st.
Proof.
  split; [destruct tr; reflexivity|].
  split.
  - destruct st as [vas aas vs asg pl sv sa apl ds rs n vl al].
    destruct tr; cbn [handleUpload];
      [unfold handleVideoUpload | unfold handleAudioUpload];
      project_editor; cbn [newAssets List.length];
      now rewrite Nat.add_0_r, app_nil_r.
  - exists (newAssets createId (idCount st) files).
    destruct (newAssets_fields createId files (idCount st))
      as (H1 & H2 & H3 & H4).
    destruct tr; repeat split; assumption.
Qed.

(** ** AutoCut for all videos *)

Lemma applyHighlights_effect (createId : nat -> Id)
    (ranges : list Highlight.t) (asset : Asset.t) (st : Editor) :
  videoSegments (applyHighlights createId ranges asset st)
  = videoSegments st
    ++ highlightSegments createId (idCount st) (Asset.id asset) ranges
  /\ idCount (applyHighlights createId ranges asset st)
     = (idCount st + List.length ranges)%nat
  /\ videoAssets (applyHighlights createId ranges asset st) = videoAssets st.
Proof.
  unfold applyHighlights.
  destruct ranges as [|h hs]; cbn [highlightSegments].
  - repeat split; simpl; now rewrite app_nil_r.
  - repeat split.
Qed.

Lemma autocut_in_turn (createId : nat -> Id) (ranges : list Highlight.t)
    (assets : list Asset.t) (st : Editor) :
  videoSegments
    (fold_left (fun s a => applyHighlights createId ranges a s) assets st)
  = videoSegments st
    ++ allHighlightSegments createId (idCount st) ranges assets
  /\ idCount
       (fold_left (fun s a => applyHighlights createId ranges a s) assets st)
     = (idCount st + List.length assets * List.length ranges)%nat.
Proof.
  revert st; induction assets as [|a assets IH]; intros st;
    cbn [fold_left allHighlightSegments List.length].
  - rewrite app_nil_r; split; [reflexivity | simpl; lia].
  - destruct (IH (applyHighlights createId ranges a st)) as [Hs Hn].
    destruct (applyHighlights_effect createId ranges a st) as (Es & En & _).
    rewrite Hs, Hn, Es, En, <- app_assoc.
    split; [reflexivity | simpl; lia].
Qed.

(** AutoCut for all videos creates the segments, ids included, that AutoCut
    on each video of the registry in turn creates, and uses as many ids; it
    selects the first segment it created, that of the first video. *)
Theorem autocut_all_is_autocut_in_turn (createId : nat -> Id)
    (ranges : list Highlight.t) (st : Editor) :
  videoSegments (applyHighlightsAll createId ranges st)
  = videoSegments
      (fold_left (fun s a => applyHighlights createId ranges a s)
         (videoAssets st) st)
  /\ idCount (applyHighlightsAll createId ranges st)
     = idCount
         (fold_left (fun s a => applyHighlights createId ranges a s)
            (videoAssets st) st)
  /\ (videoAssets st <> [] -> ranges <> [] ->
      selectedVideoSegmentId (applyHighlightsAll createId ranges st)
      = Some (createId (idCount st))).
Proof.
  destruct (autocut_in_turn createId ranges (videoAssets st) st) as [Hs Hn].
  rewrite Hs, Hn.
  unfold applyHighlightsAll.
  destruct (videoAssets st) as [|a assets] eqn:E.
  - cbn [allHighlightSegments List.length].
    rewrite app_nil_r; repeat split; [simpl; lia | now intros H].
  - destruct (allHighlightSegments createId (idCount st) ranges (a :: assets))
      as [|first rest] eqn:Hall.
    + repeat split; [simpl; now rewrite app_nil_r|].
      intros _ Hr; destruct ranges as [|h hs]; [now elim Hr|].
      discriminate Hall.
    + repeat split.
      intros _ Hr; destruct ranges as [|h hs]; [now elim Hr|].
      cbn in Hall; injection Hall as <- _; reflexivity.
Qed.

Lemma autocut_all_is_autocut_in_turn_witness :
  selectedVideoSegmentId (applyHighlightsAll Scenario.ids HIGHLIGHTS Scenario.cut)
  = Some (Scenario.ids (idCount Scenario.cut)).
Proof.
  apply (proj2 (proj2 (autocut_all_is_autocut_in_turn Scenario.ids HIGHLIGHTS
                         Scenario.cut))); discriminate.
Defined.

(** ** What a session keeps true *)

Ltac split_matches :=
  repeat match goal with
         | |- context [match ?e with _ => _ end] => destruct e eqn:?
         end.

Lemma selectionValid_ids (tr : Track) (st : Editor) :
  selectionValid tr st
  <-> forall i, selectedIdOf tr st = Some i -> In i (segmentIds tr st).
Proof.
  unfold selectionValid, segmentIds.
  destruct (selectedIdOf tr st) as [j|]; split.
  - intros (s & Hs & <-) i [= <-]; now apply in_map.
  - intros H; specialize (H j eq_refl).
    apply in_map_iff in H; destruct H as (s & Hid & Hs); eauto.
  - intros _ i H; discriminate.
  - trivial.
Qed.

Lemma assetsResolved_ids (tr : Track) (st : Editor) :
  assetsResolved tr st <-> incl (usedAssetIds tr st) (assetIds tr st).
Proof.
  unfold assetsResolved, usedAssetIds, assetIds, incl; split.
  - intros H x Hx; apply in_map_iff in Hx; destruct Hx as (s & <- & Hs).
    destruct (H s Hs) as (a & Ha & <-); now apply in_map.
  - intros H s Hs.
    specialize (H (Segment.assetId s) (in_map _ _ _ Hs)).
    apply in_map_iff in H; destruct H as (a & Ha & Hin); eauto.
Qed.

Lemma Step_keeps_Inv (a b : Editor) : Step a b -> Inv a -> Inv b.
Proof.
  intros HS HI tr; destruct (HS tr) as (Hassets & Hused & Hsel).
  destruct (HI tr) as [Hv Hr]; split.
  - apply selectionValid_ids; intros i Hi.
    destruct (Hsel i Hi) as [Hin|[Hold Hkeep]]; [exact Hin|].
    apply Hkeep; now apply (proj1 (selectionValid_ids tr a) Hv).
  - apply assetsResolved_ids; intros x Hx.
    destruct (Hused x Hx) as [Hold|Hnew]; [|exact Hnew].
    apply Hassets; now apply (proj1 (assetsResolved_ids tr a) Hr).
Qed.

Lemma sameContent_sameIds (a b : Editor) : sameContent a b -> sameIds a b.
Proof.
  intros (Hn & Hva & Haa & Hvs & Has); split; [exact Hn|].
  intros tr; unfold segmentIds, usedAssetIds, assetIds.
  destruct tr; cbn [segmentsOf assetsOf]; now rewrite ?Hva, ?Haa, ?Hvs, ?Has.
Qed.

Lemma sameIds_Step (a b : Editor) :
  sameIds a b -> (forall tr, selectedIdOf tr b = selectedIdOf tr a) ->
  Step a b.
Proof.
  intros [_ H] Hsel tr; destruct (H tr) as (Hi & Hu & Ha).
  rewrite Hi, Hu, Ha, Hsel; repeat split.
  - apply incl_refl.
  - intros x Hx; now left.
  - intros i Hi'; right; split; auto.
Qed.

Lemma sameContent_Step (a b : Editor) :
  sameContent a b ->
  (forall tr i, selectedIdOf tr b = Some i ->
                selectedIdOf tr a = Some i \/ In i (segmentIds tr a)) ->
  Step a b.
Proof.
  intros Hc Hsel tr.
  destruct (sameContent_sameIds a b Hc) as [_ H].
  destruct (H tr) as (Hi & Hu & Ha).
  rewrite Hi, Hu, Ha; repeat split.
  - apply incl_refl.
  - intros x Hx; now left.
  - intros i Hi'; destruct (Hsel tr i Hi') as [Hold|Hin];
      [right; split; auto | now left].
Qed.

(** *** Handlers that leave assets and segments alone *)

Lemma sameContent_refl (st : Editor) : sameContent st st.
Proof. repeat split. Qed.

Lemma togglePlayback_content (st : Editor) :
  sameContent st (togglePlayback st).
Proof.
  unfold togglePlayback, togglePlaybackOn; split_matches; repeat split.
Qed.

Lemma toggleAudioPlayback_content (st : Editor) :
  sameContent st (toggleAudioPlayback st).
Proof.
  unfold toggleAudioPlayback, toggleAudioPlaybackOn; split_matches;
    repeat split.
Qed.

Lemma playEffect_content (st : Editor) :
  sameContent st (videoPlayEffect st) /\ sameContent st (audioPlayEffect st).
Proof.
  unfold videoPlayEffect, audioPlayEffect; split; split_matches;
    repeat split.
Qed.

Lemma onTimeUpdate_content (t : Q) (st : Editor) :
  sameContent st (onTimeUpdate t st)
  /\ sameContent st (onAudioTimeUpdate t st).
Proof.
  unfold onTimeUpdate, onTimeUpdateOn, onAudioTimeUpdate, onAudioTimeUpdateOn;
    split; split_matches; repeat split.
Qed.

Lemma sorted_first_In (l : list Segment.t) (first : Segment.t)
    (rest : list Segment.t) :
  sortByTimelineStart l = first :: rest -> In first l.
Proof.
  intros E.
  apply (Permutation_in first (Permutation_sym (sortByTimelineStart_perm l))).
  rewrite E; now left.
Qed.

Lemma at_In {A} (l : list A) (z : Z) (x : A) : at_ l z = Some x -> In x l.
Proof.
  unfold at_; destruct (z <? 0)%Z; [discriminate|].
  apply nth_error_In.
Qed.

Lemma nextAfter_In (l : list Segment.t) (sel next : Segment.t) :
  nextAfter l sel = Some next -> In next l.
Proof.
  unfold nextAfter; intros H; apply at_In in H.
  exact (Permutation_in next
           (Permutation_sym (sortByTimelineStart_perm l)) H).
Qed.

Lemma togglePlayback_selection (st : Editor) (tr : Track) (i : Id) :
  selectedIdOf tr (togglePlayback st) = Some i ->
  selectedIdOf tr st = Some i \/ In i (segmentIds tr st).
Proof.
  unfold togglePlayback, togglePlaybackOn.
  destruct (videoRef_current st); [|now left].
  destruct (isPlaying st); cbn [negb]; [now left|].
  destruct (selectedVideoSegment st); [now left|].
  destruct (videoSegments st) as [|s l] eqn:E; [now left|].
  destruct (sortByTimelineStart (s :: l)) as [|first rest] eqn:Es;
    [now left|].
  destruct tr; cbn [selectedIdOf]; [|now left].
  intros [= <-]; right.
  unfold segmentIds; cbn [segmentsOf]; rewrite E.
  apply in_map; eapply sorted_first_In; eassumption.
Qed.

Lemma toggleAudioPlayback_selection (st : Editor) (tr : Track) (i : Id) :
  selectedIdOf tr (toggleAudioPlayback st) = Some i ->
  selectedIdOf tr st = Some i \/ In i (segmentIds tr st).
Proof.
  unfold toggleAudioPlayback, toggleAudioPlaybackOn.
  destruct (audioRef_current st); [|now left].
  destruct (isAudioPlaying st); cbn [negb]; [now left|].
  destruct (selectedAudioSegment st); [now left|].
  destruct (audioSegments st) as [|s l] eqn:E; [now left|].
  destruct (sortByTimelineStart (s :: l)) as [|first rest] eqn:Es;
    [now left|].
  destruct tr; cbn [selectedIdOf]; [now left|].
  intros [= <-]; right.
  unfold segmentIds; cbn [segmentsOf]; rewrite E.
  apply in_map; eapply sorted_first_In; eassumption.
Qed.

Lemma onTimeUpdate_selection (t : Q) (st : Editor) (tr : Track) (i : Id) :
  selectedIdOf tr (onTimeUpdate t st) = Some i ->
  selectedIdOf tr st = Some i \/ In i (segmentIds tr st).
Proof.
  unfold onTimeUpdate, onTimeUpdateOn.
  destruct (videoRef_current st); [|now left].
  destruct (selectedVideoSegment st) as [sel|] eqn:Esel; [|now left].
  destruct (isPlaying st); cbn [negb]; [|now left].
  destruct (Qle_bool _ t); [|now left].
  unfold getNextVideoSegment; rewrite Esel.
  destruct (nextAfter (videoSegments st) sel) as [next|] eqn:En;
    [|now left].
  destruct tr; cbn [selectedIdOf]; [|now left].
  intros [= <-]; right.
  apply in_map; eapply nextAfter_In; eassumption.
Qed.

Lemma onAudioTimeUpdate_selection (t : Q) (st : Editor) (tr : Track)
    (i : Id) :
  selectedIdOf tr (onAudioTimeUpdate t st) = Some i ->
  selectedIdOf tr st = Some i \/ In i (segmentIds tr st).
Proof.
  unfold onAudioTimeUpdate, onAudioTimeUpdateOn.
  destruct (audioRef_current st); [|now left].
  destruct (selectedAudioSegment st) as [sel|] eqn:Esel; [|now left].
  destruct (isAudioPlaying st); cbn [negb]; [|now left].
  destruct (Qle_bool _ t); [|now left].
  destruct (nextAfter (audioSegments st) sel) as [next|] eqn:En;
    [|now left].
  destruct tr; cbn [selectedIdOf]; [now left|].
  intros [= <-]; right.
  apply in_map; eapply nextAfter_In; eassumption.
Qed.

(** *** Handlers that keep every id *)

Lemma dragSegment_ids (d : Drag.t) (u : Q) (l : list Segment.t) :
  map Segment.id (map (dragSegment d u) l) = map Segment.id l
  /\ map Segment.assetId (map (dragSegment d u) l) = map Segment.assetId l.
Proof.
  rewrite !map_map; split; apply map_ext; intros s;
    unfold dragSegment; destruct (idIs _ _); reflexivity.
Qed.

Lemma resizeSegment_ids (assets : list Asset.t) (r : Resize.t) (delta : Q)
    (l : list Segment.t) :
  map Segment.id (map (resizeSegment assets r delta) l) = map Segment.id l
  /\ map Segment.assetId (map (resizeSegment assets r delta) l)
     = map Segment.assetId l.
Proof.
  rewrite !map_map; split; apply map_ext; intros s;
    unfold resizeSegment; destruct (idIs _ _); reflexivity.
Qed.

Lemma onMouseMove_sameIds (vA aA : list Asset.t) (x : Q) (st : Editor) :
  sameIds st (onMouseMove vA aA x st)
  /\ forall tr, selectedIdOf tr (onMouseMove vA aA x st) = selectedIdOf tr st.
Proof.
  destruct st as [vas aas vs asg pl sv sa apl ds rs n vl al].
  unfold onMouseMove, onResize, onDrag, sameIds, segmentIds, usedAssetIds,
    assetIds.
  destruct ds as [d|], rs as [r|]; project_editor;
    (split; [split; [reflexivity|]|]; intros tr; destruct tr;
     cbn [segmentsOf assetsOf selectedIdOf]; project_editor;
     repeat split;
     rewrite ?(proj1 (resizeSegment_ids _ _ _ _)),
       ?(proj2 (resizeSegment_ids _ _ _ _)),
       ?(proj1 (dragSegment_ids _ _ _)), ?(proj2 (dragSegment_ids _ _ _));
     reflexivity).
Qed.

Lemma withField_ids (o : option Id) (f : FormField) (v : Q)
    (l : list Segment.t) :
  map Segment.id
    (map (fun s => if idIs o (Segment.id s) then withField f v s else s) l)
  = map Segment.id l
  /\ map Segment.assetId
       (map (fun s => if idIs o (Segment.id s) then withField f v s else s) l)
     = map Segment.assetId l.
Proof.
  rewrite !map_map; split; apply map_ext; intros s;
    destruct (idIs _ _), f; reflexivity.
Qed.

Lemma editSegment_rest (tr : Track) (f : FormField) (v : Q) (st : Editor) :
  idCount (editSegment tr f v st) = idCount st
  /\ videoAssets (editSegment tr f v st) = videoAssets st
  /\ audioAssets (editSegment tr f v st) = audioAssets st
  /\ selectedIdOf (other tr) (editSegment tr f v st)
     = selectedIdOf (other tr) st.
Proof.
  unfold editSegment; destruct tr, (selectedSegmentOf _ st); repeat split.
Qed.

Lemma editSegment_sameIds (tr : Track) (f : FormField) (v : Q)
    (st : Editor) :
  sameIds st (editSegment tr f v st)
  /\ forall tr', selectedIdOf tr' (editSegment tr f v st)
                 = selectedIdOf tr' st.
Proof.
  destruct (editSegment_effect tr f v st) as (Hseg & Hsel & Hother).
  destruct (editSegment_rest tr f v st) as (Hn & Hva & Haa & Hsel').
  destruct (withField_ids (selectedIdOf tr st) f v (segmentsOf tr st))
    as [Hi Ha].
  split; [split; [exact Hn|]|].
  - intros tr'; unfold segmentIds, usedAssetIds, assetIds.
    destruct tr, tr'; cbn [segmentsOf assetsOf other] in *;
      rewrite ?Hseg, ?Hother, ?Hva, ?Haa, ?Hi, ?Ha; repeat split.
  - intros tr'; destruct tr, tr'; cbn [other] in *; assumption.
Qed.

Lemma metadata_sameIds (tr : Track) (i : Id) (d : Q) (st : Editor) :
  sameIds st (handleLoadedMetadata tr i d st)
  /\ forall tr', selectedIdOf tr' (handleLoadedMetadata tr i d st)
                 = selectedIdOf tr' st.
Proof.
  assert (Hmap : forall l,
             map Asset.id (map (withDuration i d) l) = map Asset.id l).
  { intros l; rewrite map_map; apply map_ext; intros a.
    apply withDuration_frame. }
  split; [split; [destruct tr; reflexivity|]|].
  - intros tr'; unfold segmentIds, usedAssetIds, assetIds.
    destruct tr, tr'; cbn [segmentsOf assetsOf handleLoadedMetadata];
      repeat split; apply Hmap.
  - intros tr'; destruct tr, tr'; reflexivity.
Qed.

(** *** Handlers that add or remove segments *)

Lemma Step_grow (a b : Editor) :
  (forall tr, incl (assetIds tr a) (assetIds tr b)) ->
  (forall tr, exists new,
      segmentsOf tr b = segmentsOf tr a ++ new
      /\ Forall (fun s => In (Segment.assetId s) (assetIds tr b)) new) ->
  (forall tr, selectedIdOf tr b = selectedIdOf tr a
              \/ exists i, selectedIdOf tr b = Some i
                           /\ In i (segmentIds tr b)) ->
  Step a b.
Proof.
  intros Hassets Hsegs Hsel tr.
  destruct (Hsegs tr) as (new & Hb & Hnew).
  split; [apply Hassets|]; split.
  - intros x Hx; unfold usedAssetIds in *; rewrite Hb, map_app in Hx.
    apply in_app_or in Hx; destruct Hx as [Hx|Hx]; [now left|right].
    apply in_map_iff in Hx; destruct Hx as (s & <- & Hs).
    exact (proj1 (Forall_forall _ _) Hnew s Hs).
  - intros i Hi; destruct (Hsel tr) as [Hsame|(j & Hj & Hin)].
    + right; split; [now rewrite <- Hsame|].
      unfold segmentIds; rewrite Hb, map_app; intros H.
      apply in_or_app; now left.
    + left; rewrite Hi in Hj; now injection Hj as <-.
Qed.

Lemma upload_Step (createId : nat -> Id) (tr : Track)
    (files : option (list File.t)) (st : Editor) :
  Step st (handleUpload createId tr files st).
Proof.
  destruct files as [files|];
    [|destruct tr; apply sameIds_Step; repeat split].
  apply Step_grow.
  - intros tr'; unfold assetIds; destruct tr, tr'; cbn [assetsOf handleUpload];
      try apply incl_refl;
      [unfold handleVideoUpload | unfold handleAudioUpload];
      project_editor; rewrite map_app; apply incl_appl, incl_refl.
  - intros tr'; exists []; rewrite app_nil_r; split; [|constructor].
    destruct tr, tr'; reflexivity.
  - intros tr'; left; destruct tr, tr'; reflexivity.
Qed.

Lemma add_Step (createId : nat -> Id) (tr : Track) (asset : Asset.t)
    (st : Editor) :
  In asset (assetsOf tr st) -> Step st (addToTimeline createId tr asset st).
Proof.
  intros Hin; apply Step_grow.
  - intros tr'; destruct tr, tr'; apply incl_refl.
  - intros tr'; destruct tr, tr';
      (eexists; split; [reflexivity|]) || (exists []; split;
                                            [now rewrite app_nil_r|]);
      repeat constructor;
      unfold assetIds; apply (in_map Asset.id _ asset); exact Hin.
  - destruct st as [vas aas vs asg pl sv sa apl ds rs n vl al].
    intros tr'; destruct tr, tr'; try (left; reflexivity);
      right; eexists; (split; [reflexivity|]);
      unfold segmentIds; cbn [segmentsOf addToTimeline];
      [unfold addVideoToTimeline | unfold addAudioToTimeline];
      project_editor; rewrite map_app; apply in_or_app; right; now left.
Qed.

Lemma highlightSegments_assets (createId : nat -> Id)
    (ranges : list Highlight.t) (aid : Id) (n : nat) :
  Forall (fun s => Segment.assetId s = aid)
    (highlightSegments createId n aid ranges).
Proof.
  revert n; induction ranges as [|h hs IH]; intros n; simpl; constructor;
    [reflexivity | apply IH].
Qed.

Lemma allHighlightSegments_assets (createId : nat -> Id)
    (ranges : list Highlight.t) (assets : list Asset.t) (n : nat) :
  Forall (fun s => In (Segment.assetId s) (map Asset.id assets))
    (allHighlightSegments createId n ranges assets).
Proof.
  revert n; induction assets as [|a assets IH]; intros n; simpl;
    [constructor|].
  apply Forall_app; split.
  - eapply Forall_impl; [|apply highlightSegments_assets].
    intros s ->; now left.
  - eapply Forall_impl; [|apply IH]; intros s Hs; now right.
Qed.

Lemma applyHighlights_Step (createId : nat -> Id)
    (ranges : list Highlight.t) (asset : Asset.t) (st : Editor) :
  In asset (videoAssets st) ->
  Step st (applyHighlights createId ranges asset st).
Proof.
  intros Hin; apply Step_grow.
  - intros tr; unfold applyHighlights; split_matches; destruct tr;
      apply incl_refl.
  - intros [|].
    + exists (highlightSegments createId (idCount st) (Asset.id asset) ranges).
      split; [apply applyHighlights_effect|].
      eapply Forall_impl; [|apply highlightSegments_assets].
      intros s ->; unfold assetIds; cbn [assetsOf].
      rewrite (proj2 (proj2 (applyHighlights_effect createId ranges asset st))).
      now apply in_map.
    + exists []; rewrite app_nil_r; split; [|constructor].
      unfold applyHighlights; split_matches; reflexivity.
  - intros [|]; [|left; unfold applyHighlights; split_matches; reflexivity].
    unfold segmentIds; cbn [segmentsOf selectedIdOf].
    rewrite (proj1 (applyHighlights_effect createId ranges asset st)).
    unfold applyHighlights.
    destruct (highlightSegments createId (idCount st) (Asset.id asset) ranges)
      as [|first rest]; [now left|].
    right; exists (Segment.id first); split; [reflexivity|].
    rewrite map_app; apply in_or_app; right; now left.
Qed.

Lemma applyHighlightsAll_effect (createId : nat -> Id)
    (ranges : list Highlight.t) (st : Editor) :
  videoSegments (applyHighlightsAll createId ranges st)
  = videoSegments st
    ++ allHighlightSegments createId (idCount st) ranges (videoAssets st)
  /\ idCount (applyHighlightsAll createId ranges st)
     = (idCount st + List.length (videoAssets st) * List.length ranges)%nat
  /\ videoAssets (applyHighlightsAll createId ranges st) = videoAssets st
  /\ audioAssets (applyHighlightsAll createId ranges st) = audioAssets st
  /\ audioSegments (applyHighlightsAll createId ranges st) = audioSegments st
  /\ selectedAudioSegmentId (applyHighlightsAll createId ranges st)
     = selectedAudioSegmentId st
  /\ selectedVideoSegmentId (applyHighlightsAll createId ranges st)
     = match
         allHighlightSegments createId (idCount st) ranges (videoAssets st)
       with
       | [] => selectedVideoSegmentId st
       | first :: _ => Some (Segment.id first)
       end.
Proof.
  unfold applyHighlightsAll.
  destruct (videoAssets st) as [|a assets] eqn:E.
  - cbn [allHighlightSegments List.length Nat.mul].
    rewrite app_nil_r, Nat.add_0_r; repeat split; now rewrite ?E.
  - destruct (allHighlightSegments createId (idCount st) ranges (a :: assets))
      as [|first rest]; rewrite ?app_nil_r; repeat split; exact E.
Qed.

Lemma applyHighlightsAll_Step (createId : nat -> Id)
    (ranges : list Highlight.t) (st : Editor) :
  Step st (applyHighlightsAll createId ranges st).
Proof.
  destruct (applyHighlightsAll_effect createId ranges st)
    as (Hvs & Hn & Hva & Haa & Has & Hsa & Hsv).
  apply Step_grow.
  - intros [|]; unfold assetIds; cbn [assetsOf]; rewrite ?Hva, ?Haa;
      apply incl_refl.
  - intros [|]; cbn [segmentsOf].
    + eexists; split; [exact Hvs|].
      unfold assetIds; cbn [assetsOf]; rewrite Hva.
      apply allHighlightSegments_assets.
    + exists []; rewrite app_nil_r; split; [exact Has | constructor].
  - intros [|]; cbn [selectedIdOf]; [|now left].
    unfold segmentIds; cbn [segmentsOf]; rewrite Hsv, Hvs.
    destruct (allHighlightSegments createId (idCount st) ranges
                (videoAssets st)) as [|first rest]; [now left|].
    right; eexists; split; [reflexivity|].
    rewrite map_app; apply in_or_app; right; now left.
Qed.

Lemma click_Step (tr : Track) (seg : Segment.t) (st : Editor) :
  In seg (segmentsOf tr st) -> Step st (selectSegment tr (Segment.id seg) st).
Proof.
  intros Hin; apply sameContent_Step; [destruct tr; repeat split|].
  intros tr' i; destruct tr, tr'; cbn [selectSegment selectedIdOf];
    try (now left); intros [= <-]; right; now apply in_map.
Qed.

Lemma delete_Step (tr : Track) (i : Id) (st : Editor) :
  Step st (deleteSegment tr i st).
Proof.
  assert (Hids : forall l x,
             In x (map Segment.id (removeId i l)) <->
             In x (map Segment.id l) /\ x <> i).
  { intros l x; rewrite !in_map_iff; split.
    - intros (s & <- & Hs); apply removeId_In in Hs; destruct Hs; eauto.
    - intros [(s & <- & Hs) Hne]; exists s; split; [reflexivity|].
      now apply removeId_In. }
  assert (Hused : forall l x,
             In x (map Segment.assetId (removeId i l)) ->
             In x (map Segment.assetId l)).
  { intros l x; rewrite !in_map_iff; intros (s & <- & Hs).
    apply removeId_In in Hs; destruct Hs; eauto. }
  destruct st as [vas aas vs asg pl sv sa apl ds rs n vl al].
  intros tr'; unfold assetIds, usedAssetIds, segmentIds.
  destruct tr, tr'; cbn [deleteSegment];
    [unfold deleteVideoSegment | unfold deleteVideoSegment
    |unfold deleteAudioSegment | unfold deleteAudioSegment];
    project_editor; cbn [segmentsOf assetsOf selectedIdOf];
    match goal with
    | |- context [idIs ?o i] => destruct (idIs o i) eqn:E
    end; project_editor;
    (split; [apply incl_refl|]); (split; [intros x Hx; left; eauto|]);
    intros j Hj; try discriminate; right; (split; [exact Hj|]);
    try tauto; intros Hin; apply Hids; split; try assumption;
    intros ->; rewrite (proj2 (idIs_spec _ _) Hj) in E; discriminate.
Qed.

Lemma Reachable_Inv (createId : nat -> Id) (st : Editor) :
  Reachable createId st -> Inv st.
Proof.
  induction 1 as
    [ | tr st files _ IH | tr st asset d _ IH Hin | tr st asset _ IH Hin
    | st asset _ IH Hin | st _ IH | tr st seg _ IH Hin | tr st seg _ IH Hin
    | tr st f v _ IH | st _ IH | st _ IH | st _ IH | st _ IH | st t _ IH
    | st t _ IH | tr st seg x _ IH Hin | tr st seg edge x _ IH Hin
    | st x _ IH | st _ IH ].
  - intros tr; split; [destruct tr; exact I | intros s Hs; destruct tr, Hs].
  - eapply Step_keeps_Inv; [apply upload_Step | exact IH].
  - eapply Step_keeps_Inv; [|exact IH].
    apply sameIds_Step; apply metadata_sameIds.
  - eapply Step_keeps_Inv; [now apply add_Step | exact IH].
  - eapply Step_keeps_Inv; [now apply applyHighlights_Step | exact IH].
  - eapply Step_keeps_Inv; [apply applyHighlightsAll_Step | exact IH].
  - eapply Step_keeps_Inv; [now apply click_Step | exact IH].
  - eapply Step_keeps_Inv; [apply delete_Step | exact IH].
  - eapply Step_keeps_Inv; [|exact IH].
    apply sameIds_Step; apply editSegment_sameIds.
  - eapply Step_keeps_Inv; [|exact IH].
    apply sameContent_Step;
      [apply togglePlayback_content | apply togglePlayback_selection].
  - eapply Step_keeps_Inv; [|exact IH].
    apply sameContent_Step;
      [apply toggleAudioPlayback_content
      |apply toggleAudioPlayback_selection].
  - eapply Step_keeps_Inv; [|exact IH].
    apply sameContent_Step; [apply playEffect_content|].
    intros tr i; unfold videoPlayEffect; split_matches; destruct tr;
      now left.
  - eapply Step_keeps_Inv; [|exact IH].
    apply sameContent_Step; [apply playEffect_content|].
    intros tr i; unfold audioPlayEffect; split_matches; destruct tr;
      now left.
  - eapply Step_keeps_Inv; [|exact IH].
    apply sameContent_Step;
      [apply onTimeUpdate_content | apply onTimeUpdate_selection].
  - eapply Step_keeps_Inv; [|exact IH].
    apply sameContent_Step;
      [apply onTimeUpdate_content | apply onAudioTimeUpdate_selection].
  - eapply Step_keeps_Inv; [|exact IH].
    apply sameContent_Step; [repeat split|].
    intros tr' i; destruct tr'; now left.
  - eapply Step_keeps_Inv; [|exact IH].
    apply sameContent_Step; [repeat split|].
    intros tr' i; destruct tr'; now left.
  - eapply Step_keeps_Inv; [|exact IH].
    apply sameIds_Step; apply onMouseMove_sameIds.
  - eapply Step_keeps_Inv; [|exact IH].
    apply sameContent_Step; [repeat split|].
    intros tr' i; destruct tr'; now left.
Qed.

Lemma find_present {A} (p : A -> bool) (l : list A) (x : A) :
  In x l -> p x = true -> exists y, find p l = Some y.
Proof.
  induction l as [|z l IH]; intros Hin Hp; [destruct Hin|].
  destruct Hin as [<-|Hin]; simpl.
  - rewrite Hp; eauto.
  - destruct (p z); eauto.
Qed.

Lemma selection_lookup (createId : nat -> Id) (tr : Track)
    (st : Editor) (i : Id) :
  Reachable createId st ->
  selectedIdOf tr st = Some i ->
  exists s, selectedSegmentOf tr st = Some s
            /\ Segment.id s = i /\ In s (segmentsOf tr st).
Proof.
  intros Hreach Hsel.
  destruct (Reachable_Inv createId st Hreach tr) as [Hvalid _].
  unfold selectionValid in Hvalid; rewrite Hsel in Hvalid.
  destruct Hvalid as (s0 & Hin & Hid).
  assert (Hfind : exists s,
             find (fun s => String.eqb (Segment.id s) i) (segmentsOf tr st)
             = Some s).
  { apply (find_present _ _ s0 Hin); now apply String.eqb_eq. }
  destruct Hfind as (s & Hs); exists s.
  pose proof (find_some _ _ Hs) as [Hs_in Hs_id].
  apply String.eqb_eq in Hs_id.
  destruct tr; cbn [selectedSegmentOf selectedIdOf segmentsOf] in *;
    [unfold selectedVideoSegment | unfold selectedAudioSegment];
    rewrite Hsel; unfold findSegment; auto.
Qed.

Lemma asset_lookup (createId : nat -> Id) (tr : Track)
    (st : Editor) (s : Segment.t) :
  Reachable createId st ->
  In s (segmentsOf tr st) ->
  exists a, findAsset (assetsOf tr st) (Segment.assetId s) = Some a
            /\ Asset.id a = Segment.assetId s /\ In a (assetsOf tr st).
Proof.
  intros Hreach Hin.
  destruct (Reachable_Inv createId st Hreach tr) as [_ Hres].
  destruct (Hres s Hin) as (a0 & Ha0 & Hid).
  assert (Hfind : exists a,
             find (fun a => String.eqb (Asset.id a) (Segment.assetId s))
               (assetsOf tr st) = Some a).
  { apply (find_present _ _ a0 Ha0); now apply String.eqb_eq. }
  destruct Hfind as (a & Ha); exists a.
  pose proof (find_some _ _ Ha) as [Ha_in Ha_id].
  apply String.eqb_eq in Ha_id; auto.
Qed.

Lemma Demo_cut_reachable : Reachable unary Demo.cut.
Proof.
  apply (Reach_autoCut unary Demo.registered Demo.asset); [|now left].
  apply (Reach_metadata unary Video Demo.uploaded Demo.assetBefore 12);
    [|now left].
  apply (Reach_upload unary Video initialEditor (Some [Demo.file])).
  apply Reach_mount.
Qed.

Lemma Demo_playing_reachable : Reachable unary Demo.playing.
Proof. apply Reach_toggle, Demo_cut_reachable. Qed.

(** In every state of a session, a selection names a segment that is in its
    track: looking the selected id up always finds a segment, and it bears
    that id. *)
Theorem selection_names_a_segment (createId : nat -> Id) (tr : Track)
    (st : Editor) (i : Id) :
  Reachable createId st ->
  selectedIdOf tr st = Some i ->
  exists s, selectedSegmentOf tr st = Some s
            /\ Segment.id s = i /\ In s (segmentsOf tr st).
Proof. apply selection_lookup. Qed.

Lemma selection_names_a_segment_witness :
  exists s, selectedSegmentOf Video Demo.cut = Some s
            /\ Segment.id s = unary 1 /\ In s (segmentsOf Video Demo.cut).
Proof.
  apply (selection_names_a_segment unary Video Demo.cut (unary 1)).
  - apply Demo_cut_reachable.
  - reflexivity.
Defined.

(** In every state of a session, the asset of every segment is in the
    registry of its track: looking it up always finds it. *)
Theorem segments_have_their_asset (createId : nat -> Id) (tr : Track)
    (st : Editor) (s : Segment.t) :
  Reachable createId st ->
  In s (segmentsOf tr st) ->
  exists a, findAsset (assetsOf tr st) (Segment.assetId s) = Some a
            /\ Asset.id a = Segment.assetId s /\ In a (assetsOf tr st).
Proof. apply asset_lookup. Qed.

Lemma segments_have_their_asset_witness :
  exists a, findAsset (assetsOf Video Demo.cut) (Segment.assetId Demo.second)
            = Some a
            /\ Asset.id a = Segment.assetId Demo.second
            /\ In a (assetsOf Video Demo.cut).
Proof.
  apply (segments_have_their_asset unary Video Demo.cut Demo.second).
  - apply Demo_cut_reachable.
  - right; left; reflexivity.
Defined.

Lemma element_lookup (createId : nat -> Id) (st : Editor) (i : Id) :
  Reachable createId st ->
  selectedVideoSegmentId st = Some i ->
  exists s a, selectedVideoSegment st = Some s
              /\ videoRef_current st = Some a.
Proof.
  intros Hreach Hsel.
  destruct (selection_lookup createId Video st i Hreach Hsel)
    as (s & Hs & _ & Hin).
  destruct (asset_lookup createId Video st s Hreach Hin) as (a & Ha & _).
  exists s, a; cbn [selectedSegmentOf assetsOf] in *.
  split; [exact Hs|].
  unfold videoRef_current, selectedVideoAsset; now rewrite Hs.
Qed.

Lemma audio_element_lookup (createId : nat -> Id) (st : Editor) (i : Id) :
  Reachable createId st ->
  selectedAudioSegmentId st = Some i ->
  exists s a, selectedAudioSegment st = Some s
              /\ audioRef_current st = Some a.
Proof.
  intros Hreach Hsel.
  destruct (selection_lookup createId Audio st i Hreach Hsel)
    as (s & Hs & _ & Hin).
  destruct (asset_lookup createId Audio st s Hreach Hin) as (a & Ha & _).
  exists s, a; cbn [selectedSegmentOf assetsOf] in *.
  split; [exact Hs|].
  unfold audioRef_current, selectedAudioAsset; now rewrite Hs.
Qed.

(** In every state of a session, the preview has a video element exactly
    when a video segment is selected, and an audio element exactly when an
    audio segment is selected. *)
Theorem element_exists_iff_selected (createId : nat -> Id) (st : Editor) :
  Reachable createId st ->
  (videoRef_current st = None <-> selectedVideoSegmentId st = None)
  /\ (audioRef_current st = None <-> selectedAudioSegmentId st = None).
Proof.
  intros Hreach; split; split.
  - intros Hnone.
    destruct (selectedVideoSegmentId st) as [i|] eqn:Hsel; [|reflexivity].
    destruct (element_lookup createId st i Hreach Hsel) as (s & a & _ & Ha).
    congruence.
  - intros Hsel; unfold videoRef_current, selectedVideoAsset,
      selectedVideoSegment; now rewrite Hsel.
  - intros Hnone.
    destruct (selectedAudioSegmentId st) as [i|] eqn:Hsel; [|reflexivity].
    destruct (audio_element_lookup createId st i Hreach Hsel)
      as (s & a & _ & Ha).
    congruence.
  - intros Hsel; unfold audioRef_current, selectedAudioAsset,
      selectedAudioSegment; now rewrite Hsel.
Qed.

Lemma element_exists_iff_selected_witness :
  (videoRef_current Demo.orphaned = None
   <-> selectedVideoSegmentId Demo.orphaned = None)
  /\ (audioRef_current Demo.orphaned = None
      <-> selectedAudioSegmentId Demo.orphaned = None).
Proof.
  apply (element_exists_iff_selected unary Demo.orphaned).
  apply (Reach_delete unary Video Demo.playing Demo.first);
    [apply Demo_playing_reachable | now left].
Defined.

(** In every state of a session with a selected video segment, Play/Pause
    really toggles: it flips [isPlaying], keeps the selection, and sends a
    pause to the video element exactly when it was playing. *)
Theorem toggle_flips_when_selected (createId : nat -> Id) (st : Editor) :
  Reachable createId st ->
  selectedVideoSegmentId st <> None ->
  isPlaying (togglePlayback st) = negb (isPlaying st)
  /\ selectedVideoSegmentId (togglePlayback st) = selectedVideoSegmentId st
  /\ videoLog (togglePlayback st)
     = if isPlaying st then videoLog st ++ [Pause] else videoLog st.
Proof.
  intros Hreach Hsel.
  destruct (selectedVideoSegmentId st) as [i|] eqn:Ei; [|now elim Hsel].
  destruct (element_lookup createId st i Hreach Ei) as (s & a & Hs & Ha).
  unfold togglePlayback, togglePlaybackOn; rewrite Ha, Hs.
  destruct (isPlaying st) eqn:Ep; cbn [negb]; repeat split;
    cbn; now rewrite ?Ei, ?Ep.
Qed.

Lemma toggle_flips_when_selected_witness :
  isPlaying (togglePlayback Demo.playing) = negb (isPlaying Demo.playing)
  /\ selectedVideoSegmentId (togglePlayback Demo.playing)
     = selectedVideoSegmentId Demo.playing
  /\ videoLog (togglePlayback Demo.playing)
     = if isPlaying Demo.playing
       then videoLog Demo.playing ++ [Pause] else videoLog Demo.playing.
Proof.
  apply (toggle_flips_when_selected unary Demo.playing).
  - apply Demo_playing_reachable.
  - discriminate.
Defined.

(** Deleting the selected video segment while it plays does not stop the
    playback: [isPlaying] stays true and no pause is sent; and as nothing is
    selected then, neither Play/Pause nor a progress notification changes
    anything. *)
Theorem delete_while_playing_keeps_playing (i : Id) (t : Q) (st : Editor) :
  selectedVideoSegmentId st = Some i ->
  isPlaying st = true ->
  isPlaying (deleteVideoSegment i st) = true
  /\ videoLog (deleteVideoSegment i st) = videoLog st
  /\ selectedVideoSegmentId (deleteVideoSegment i st) = None
  /\ togglePlayback (deleteVideoSegment i st) = deleteVideoSegment i st
  /\ onTimeUpdate t (deleteVideoSegment i st) = deleteVideoSegment i st.
Proof.
  intros Hsel Hplay.
  assert (Hnone : selectedVideoSegmentId (deleteVideoSegment i st) = None).
  { unfold deleteVideoSegment; rewrite Hsel; cbn [idIs].
    now rewrite String.eqb_refl. }
  assert (Hel : videoRef_current (deleteVideoSegment i st) = None).
  { unfold videoRef_current, selectedVideoAsset, selectedVideoSegment.
    now rewrite Hnone. }
  split; [|split; [|split; [exact Hnone|split]]].
  - unfold deleteVideoSegment; destruct (idIs _ i); exact Hplay.
  - unfold deleteVideoSegment; destruct (idIs _ i); reflexivity.
  - now apply togglePlayback_without_selection.
  - unfold onTimeUpdate, onTimeUpdateOn; now rewrite Hel.
Qed.

Lemma delete_while_playing_keeps_playing_witness :
  isPlaying Demo.orphaned = true
  /\ videoLog Demo.orphaned = videoLog Demo.playing
  /\ selectedVideoSegmentId Demo.orphaned = None
  /\ togglePlayback Demo.orphaned = Demo.orphaned
  /\ onTimeUpdate 4 Demo.orphaned = Demo.orphaned.
Proof.
  apply (delete_while_playing_keeps_playing (Segment.id Demo.first) 4
           Demo.playing); reflexivity.
Defined.

(** ** Ids never repeat *)

Lemma allIds_tracks (st : Editor) :
  allIds st
  = assetIds Video st ++ assetIds Audio st
    ++ segmentIds Video st ++ segmentIds Audio st.
Proof. reflexivity. Qed.

Lemma sameIds_fresh (createId : nat -> Id) (a b : Editor) :
  sameIds a b -> idsFresh createId a -> idsFresh createId b.
Proof.
  intros [Hn H] [Hnd Hiss].
  assert (E : allIds b = allIds a).
  { rewrite !allIds_tracks.
    destruct (H Video) as (-> & _ & ->), (H Audio) as (-> & _ & ->).
    reflexivity. }
  unfold idsFresh, issued; rewrite E, Hn; now split.
Qed.

Lemma fresh_grow (createId : nat -> Id) (a b : Editor) (k : nat) :
  injective createId ->
  idsFresh createId a ->
  Permutation (allIds b) (allIds a ++ map createId (seq (idCount a) k)) ->
  idCount b = (idCount a + k)%nat ->
  idsFresh createId b.
Proof.
  intros Hinj [Hnd Hiss] Hperm Hn.
  pose proof (proj1 (Forall_forall _ _) Hiss) as Hold.
  split.
  - apply (Permutation_NoDup (Permutation_sym Hperm)).
    apply NoDup_app; [exact Hnd| |].
    + apply NoDup_map_NoDup_ForallPairs; [|apply seq_NoDup].
      intros x y _ _; apply Hinj.
    + intros x Hx Hnew.
      destruct (Hold x Hx) as (j & Hj & ->).
      apply in_map_iff in Hnew; destruct Hnew as (j' & E & Hj').
      apply Hinj in E; subst j'; apply in_seq in Hj'; lia.
  - apply (Permutation_Forall (Permutation_sym Hperm)).
    apply Forall_app; split.
    + apply Forall_forall; intros x Hx.
      destruct (Hold x Hx) as (j & Hj & ->).
      exists j; split; [lia | reflexivity].
    + apply Forall_forall; intros x Hx.
      apply in_map_iff in Hx; destruct Hx as (j & <- & Hj).
      apply in_seq in Hj; exists j; split; [lia | reflexivity].
Qed.

Lemma perm_new_1 {A} (X N R : list A) :
  Permutation ((X ++ N) ++ R) ((X ++ R) ++ N).
Proof.
  rewrite <- !app_assoc; apply Permutation_app_head, Permutation_app_comm.
Qed.

Lemma perm_new_2 {A} (X Y N R : list A) :
  Permutation (X ++ (Y ++ N) ++ R) ((X ++ Y ++ R) ++ N).
Proof.
  rewrite <- !app_assoc.
  do 2 apply Permutation_app_head; apply Permutation_app_comm.
Qed.

Lemma perm_new_3 {A} (X Y Z N R : list A) :
  Permutation (X ++ Y ++ (Z ++ N) ++ R) ((X ++ Y ++ Z ++ R) ++ N).
Proof.
  rewrite <- !app_assoc.
  do 3 apply Permutation_app_head; apply Permutation_app_comm.
Qed.

Lemma perm_new_4 {A} (X Y Z R N : list A) :
  Permutation (X ++ Y ++ Z ++ R ++ N) ((X ++ Y ++ Z ++ R) ++ N).
Proof. now rewrite <- !app_assoc. Qed.

Lemma highlightSegments_ids (createId : nat -> Id)
    (ranges : list Highlight.t) (aid : Id) (n : nat) :
  map Segment.id (highlightSegments createId n aid ranges)
  = map createId (seq n (List.length ranges)).
Proof.
  revert n; induction ranges as [|h hs IH]; intros n; simpl;
    [reflexivity | now rewrite IH].
Qed.

Lemma allHighlightSegments_ids (createId : nat -> Id)
    (ranges : list Highlight.t) (assets : list Asset.t) (n : nat) :
  map Segment.id (allHighlightSegments createId n ranges assets)
  = map createId (seq n (List.length assets * List.length ranges)).
Proof.
  revert n; induction assets as [|a assets IH]; intros n; simpl;
    [reflexivity|].
  rewrite map_app, highlightSegments_ids, IH, seq_app, map_app.
  reflexivity.
Qed.

Lemma upload_fresh (createId : nat -> Id) (tr : Track)
    (files : option (list File.t)) (st : Editor) :
  injective createId -> idsFresh createId st ->
  idsFresh createId (handleUpload createId tr files st).
Proof.
  intros Hinj Hfresh.
  destruct files as [files|]; [|destruct tr; exact Hfresh].
  apply (fresh_grow createId st _ (List.length files) Hinj Hfresh);
    [|destruct tr; reflexivity].
  destruct (newAssets_fields createId files (idCount st)) as (Hids & _).
  destruct st as [vas aas vs asg pl sv sa apl ds rs n vl al].
  unfold allIds; destruct tr; cbn [handleUpload];
    [unfold handleVideoUpload | unfold handleAudioUpload];
    project_editor; cbn [idCount] in Hids; rewrite map_app, Hids;
    [apply perm_new_1 | apply perm_new_2].
Qed.

Lemma add_fresh (createId : nat -> Id) (tr : Track) (asset : Asset.t)
    (st : Editor) :
  injective createId -> idsFresh createId st ->
  idsFresh createId (addToTimeline createId tr asset st).
Proof.
  intros Hinj Hfresh.
  apply (fresh_grow createId st _ 1 Hinj Hfresh);
    [|destruct tr; cbn; lia].
  destruct st as [vas aas vs asg pl sv sa apl ds rs n vl al].
  unfold allIds; destruct tr; cbn [addToTimeline];
    [unfold addVideoToTimeline | unfold addAudioToTimeline];
    project_editor; rewrite map_app; cbn [map seq Segment.id];
    [apply perm_new_3 | apply perm_new_4].
Qed.

Lemma applyHighlights_fresh (createId : nat -> Id)
    (ranges : list Highlight.t) (asset : Asset.t) (st : Editor) :
  injective createId -> idsFresh createId st ->
  idsFresh createId (applyHighlights createId ranges asset st).
Proof.
  intros Hinj Hfresh.
  destruct (applyHighlights_effect createId ranges asset st)
    as (Hvs & Hn & Hva).
  apply (fresh_grow createId st _ (List.length ranges) Hinj Hfresh);
    [|exact Hn].
  unfold allIds; rewrite Hvs, Hva, map_app, highlightSegments_ids.
  replace (audioAssets (applyHighlights createId ranges asset st))
    with (audioAssets st)
    by (unfold applyHighlights; split_matches; reflexivity).
  replace (audioSegments (applyHighlights createId ranges asset st))
    with (audioSegments st)
    by (unfold applyHighlights; split_matches; reflexivity).
  apply perm_new_3.
Qed.

Lemma applyHighlightsAll_fresh (createId : nat -> Id)
    (ranges : list Highlight.t) (st : Editor) :
  injective createId -> idsFresh createId st ->
  idsFresh createId (applyHighlightsAll createId ranges st).
Proof.
  intros Hinj Hfresh.
  destruct (applyHighlightsAll_effect createId ranges st)
    as (Hvs & Hn & Hva & Haa & Has & _).
  apply (fresh_grow createId st _
           (List.length (videoAssets st) * List.length ranges) Hinj Hfresh);
    [|exact Hn].
  unfold allIds.
  rewrite Hvs, Hva, Haa, Has, map_app, allHighlightSegments_ids.
  apply perm_new_3.
Qed.

Lemma NoDup_filter_middle {A} (p : A -> bool) (X C Y : list A) :
  NoDup (X ++ C ++ Y) -> NoDup (X ++ filter p C ++ Y).
Proof.
  induction X as [|x X IH]; simpl.
  - induction C as [|c C IHC]; simpl; [trivial|].
    intros H; inversion H as [|? ? Hc Hrest]; subst.
    destruct (p c); [|now apply IHC].
    constructor; [|now apply IHC].
    rewrite in_app_iff, filter_In; rewrite in_app_iff in Hc; tauto.
  - intros H; inversion H as [|? ? Hx Hrest]; subst.
    constructor; [|now apply IH].
    rewrite !in_app_iff, filter_In; rewrite !in_app_iff in Hx; tauto.
Qed.

Lemma removeId_ids (i : Id) (l : list Segment.t) :
  map Segment.id (removeId i l)
  = filter (fun j => negb (String.eqb j i)) (map Segment.id l).
Proof. unfold removeId; symmetry; apply filter_map_swap. Qed.

Lemma delete_fresh (createId : nat -> Id) (tr : Track) (i : Id)
    (st : Editor) :
  idsFresh createId st -> idsFresh createId (deleteSegment tr i st).
Proof.
  intros [Hnd Hiss].
  assert (Hn : idCount (deleteSegment tr i st) = idCount st).
  { destruct tr; cbn [deleteSegment];
      [unfold deleteVideoSegment | unfold deleteAudioSegment];
      destruct (idIs _ i); reflexivity. }
  assert (E : allIds (deleteSegment tr i st)
              = match tr with
                | Video =>
                    (map Asset.id (videoAssets st)
                     ++ map Asset.id (audioAssets st))
                    ++ filter (fun j => negb (String.eqb j i))
                         (map Segment.id (videoSegments st))
                    ++ map Segment.id (audioSegments st)
                | Audio =>
                    (map Asset.id (videoAssets st)
                     ++ map Asset.id (audioAssets st)
                     ++ map Segment.id (videoSegments st))
                    ++ filter (fun j => negb (String.eqb j i))
                         (map Segment.id (audioSegments st))
                    ++ []
                end).
  { unfold allIds; rewrite <- !removeId_ids, ?app_nil_r, <- !app_assoc.
    destruct tr; cbn [deleteSegment];
      [unfold deleteVideoSegment | unfold deleteAudioSegment];
      destruct (idIs _ i); reflexivity. }
  assert (E0 : allIds st
               = match tr with
                 | Video =>
                     (map Asset.id (videoAssets st)
                      ++ map Asset.id (audioAssets st))
                     ++ map Segment.id (videoSegments st)
                     ++ map Segment.id (audioSegments st)
                 | Audio =>
                     (map Asset.id (videoAssets st)
                      ++ map Asset.id (audioAssets st)
                      ++ map Segment.id (videoSegments st))
                     ++ map Segment.id (audioSegments st) ++ []
                 end).
  { unfold allIds; rewrite ?app_nil_r, <- !app_assoc; now destruct tr. }
  unfold idsFresh, issued; rewrite Hn, E; rewrite E0 in Hnd, Hiss.
  split.
  - destruct tr; now apply NoDup_filter_middle.
  - apply Forall_forall; intros x Hx.
    apply (proj1 (Forall_forall _ _) Hiss).
    destruct tr; revert Hx; rewrite !in_app_iff, filter_In; tauto.
Qed.

Lemma Reachable_fresh (createId : nat -> Id) (st : Editor) :
  injective createId -> Reachable createId st -> idsFresh createId st.
Proof.
  intros Hinj; induction 1 as
    [ | tr st files _ IH | tr st asset d _ IH Hin | tr st asset _ IH Hin
    | st asset _ IH Hin | st _ IH | tr st seg _ IH Hin | tr st seg _ IH Hin
    | tr st f v _ IH | st _ IH | st _ IH | st _ IH | st _ IH | st t _ IH
    | st t _ IH | tr st seg x _ IH Hin | tr st seg edge x _ IH Hin
    | st x _ IH | st _ IH ].
  - split; constructor.
  - now apply upload_fresh.
  - eapply sameIds_fresh; [apply metadata_sameIds | exact IH].
  - now apply add_fresh.
  - now apply applyHighlights_fresh.
  - now apply applyHighlightsAll_fresh.
  - eapply sameIds_fresh; [|exact IH].
    apply sameContent_sameIds; destruct tr; repeat split.
  - now apply delete_fresh.
  - eapply sameIds_fresh; [apply editSegment_sameIds | exact IH].
  - eapply sameIds_fresh; [|exact IH].
    apply sameContent_sameIds, togglePlayback_content.
  - eapply sameIds_fresh; [|exact IH].
    apply sameContent_sameIds, toggleAudioPlayback_content.
  - eapply sameIds_fresh; [|exact IH].
    apply sameContent_sameIds, playEffect_content.
  - eapply sameIds_fresh; [|exact IH].
    apply sameContent_sameIds, playEffect_content.
  - eapply sameIds_fresh; [|exact IH].
    apply sameContent_sameIds, onTimeUpdate_content.
  - eapply sameIds_fresh; [|exact IH].
    apply sameContent_sameIds, onTimeUpdate_content.
  - eapply sameIds_fresh; [|exact IH].
    apply sameContent_sameIds; repeat split.
  - eapply sameIds_fresh; [|exact IH].
    apply sameContent_sameIds; repeat split.
  - eapply sameIds_fresh; [apply onMouseMove_sameIds | exact IH].
  - eapply sameIds_fresh; [|exact IH].
    apply sameContent_sameIds; repeat split.
Qed.

Lemma unary_injective : injective unary.
Proof.
  intros m; induction m as [|m IH]; intros [|n] E; simpl in E;
    try discriminate; [reflexivity|].
  injection E as E; f_equal; now apply IH.
Qed.

(** In every state of a session whose id supply never repeats, no id is used
    twice: the ids of the video assets, the audio assets, the video segments
    and the audio segments are all different, and each was drawn from the
    supply. *)
Theorem ids_never_repeat (createId : nat -> Id) (st : Editor) :
  injective createId ->
  Reachable createId st ->
  NoDup (allIds st) /\ Forall (issued createId st) (allIds st).
Proof. apply Reachable_fresh. Qed.

Lemma ids_never_repeat_witness :
  NoDup (allIds Demo.cut) /\ Forall (issued unary Demo.cut) (allIds Demo.cut).
Proof.
  apply (ids_never_repeat unary Demo.cut).
  - apply unary_injective.
  - apply Demo_cut_reachable.
Defined.

Lemma new_id_unused (createId : nat -> Id) (tr : Track) (st : Editor) :
  injective createId -> Reachable createId st ->
  forall s, In s (segmentsOf tr st) -> Segment.id s <> createId (idCount st).
Proof.
  intros Hinj Hreach s Hs E.
  destruct (Reachable_fresh createId st Hinj Hreach) as [_ Hiss].
  assert (Hin : In (Segment.id s) (allIds st)).
  { unfold allIds; rewrite !in_app_iff.
    destruct tr; cbn [segmentsOf] in Hs;
      [right; right; left | right; right; right]; now apply in_map. }
  destruct (proj1 (Forall_forall _ _) Hiss _ Hin) as (k & Hk & Ek).
  rewrite E in Ek; apply Hinj in Ek; lia.
Qed.

(** In a session whose id supply never repeats, the segment that "+ Timeline"
    creates is the selected segment afterwards, and so is the first segment
    that AutoCut creates. *)
Theorem new_segment_is_selected (createId : nat -> Id) (tr : Track)
    (asset : Asset.t) (st : Editor) :
  injective createId ->
  Reachable createId st ->
  selectedSegmentOf tr (addToTimeline createId tr asset st)
  = Some (Segment.mk (createId (idCount st)) (Asset.id asset) 0
            (defaultDuration asset) 0)
  /\ selectedVideoSegment (handleAutoCutForAsset createId asset st)
     = Some (Segment.mk (createId (idCount st)) (Asset.id asset) 2 2 0).
Proof.
  intros Hinj Hreach; split.
  - pose proof (new_id_unused createId tr st Hinj Hreach) as Hfresh.
    destruct tr; cbn [selectedSegmentOf addToTimeline segmentsOf] in *;
      [unfold selectedVideoSegment | unfold selectedAudioSegment];
      apply (findSegment_app_fresh _ []
               (Segment.mk (createId (idCount st)) (Asset.id asset) 0
                  (defaultDuration asset) 0)); exact Hfresh.
  - pose proof (new_id_unused createId Video st Hinj Hreach) as Hfresh.
    unfold selectedVideoSegment.
    apply (findSegment_app_fresh _ _
             (Segment.mk (createId (idCount st)) (Asset.id asset) 2 2 0)).
    exact Hfresh.
Qed.

Lemma new_segment_is_selected_witness :
  selectedSegmentOf Video (addToTimeline unary Video Demo.asset Demo.cut)
  = Some (Segment.mk (unary (idCount Demo.cut)) (Asset.id Demo.asset) 0
            (defaultDuration Demo.asset) 0)
  /\ selectedVideoSegment (handleAutoCutForAsset unary Demo.asset Demo.cut)
     = Some (Segment.mk (unary (idCount Demo.cut)) (Asset.id Demo.asset)
               2 2 0).
Proof.
  apply (new_segment_is_selected unary Video Demo.asset Demo.cut).
  - apply unary_injective.
  - apply Demo_cut_reachable.
Defined.

(** ** Playback follows the timeline *)

Lemma findIndex_unique (l : list Segment.t) (k : nat) (cur : Segment.t) :
  NoDup (map Segment.id l) ->
  nth_error l k = Some cur ->
  findIndex (fun s => String.eqb (Segment.id s) (Segment.id cur)) l
  = Z.of_nat k.
Proof.
  revert k; induction l as [|x l IH]; intros k Hnd Hk;
    [destruct k; discriminate|].
  inversion Hnd as [|? ? Hx Hrest]; subst.
  destruct k as [|k]; cbn [nth_error findIndex] in *.
  - injection Hk as ->; now rewrite String.eqb_refl.
  - assert (Hne : String.eqb (Segment.id x) (Segment.id cur) = false).
    { apply String.eqb_neq; intros E; apply Hx; rewrite E.
      apply in_map; eapply nth_error_In; eassumption. }
    rewrite Hne, (IH k Hrest Hk).
    destruct (Z.ltb_spec (Z.of_nat k) 0); lia.
Qed.

Lemma at_succ {A} (l : list A) (k : nat) :
  at_ l (Z.of_nat k + 1) = nth_error l (S k).
Proof.
  unfold at_; destruct (Z.ltb_spec (Z.of_nat k + 1) 0); [lia|].
  f_equal; lia.
Qed.

Lemma same_id_same_segment (l : list Segment.t) (a b : Segment.t) :
  NoDup (map Segment.id l) -> In a l -> In b l ->
  Segment.id a = Segment.id b -> a = b.
Proof.
  induction l as [|x l IH]; intros Hnd Ha Hb E; [destruct Ha|].
  inversion Hnd as [|? ? Hx Hrest]; subst.
  destruct Ha as [<-|Ha], Hb as [<-|Hb]; auto.
  - elim Hx; rewrite E; now apply in_map.
  - elim Hx; rewrite <- E; now apply in_map.
Qed.

Lemma video_ids_unique (createId : nat -> Id) (st : Editor) :
  injective createId -> Reachable createId st ->
  NoDup (map Segment.id (videoSegments st)).
Proof.
  intros Hinj Hreach.
  destruct (Reachable_fresh createId st Hinj Hreach) as [Hnd _].
  unfold allIds in Hnd.
  apply NoDup_app_remove_l, NoDup_app_remove_l, NoDup_app_remove_r in Hnd.
  exact Hnd.
Qed.

Lemma nextAfter_in_order (l : list Segment.t) (k : nat) (cur : Segment.t) :
  NoDup (map Segment.id l) ->
  nth_error (sortByTimelineStart l) k = Some cur ->
  nextAfter l cur = nth_error (sortByTimelineStart l) (S k).
Proof.
  intros Hnd Hk; unfold nextAfter.
  rewrite (findIndex_unique _ k cur); [apply at_succ| |exact Hk].
  apply (Permutation_NoDup
           (Permutation_map Segment.id (sortByTimelineStart_perm l)) Hnd).
Qed.

Lemma onTimeUpdate_in_order (createId : nat -> Id) (st : Editor)
    (k : nat) (cur : Segment.t) (t : Q) :
  injective createId ->
  Reachable createId st ->
  nth_error (sortByTimelineStart (videoSegments st)) k = Some cur ->
  selectedVideoSegmentId st = Some (Segment.id cur) ->
  isPlaying st = true ->
  Segment.sourceStart cur + Segment.duration cur <= t ->
  onTimeUpdate t st
  = match nth_error (sortByTimelineStart (videoSegments st)) (S k) with
    | Some next => setSelectedVideoSegmentId (Some (Segment.id next)) st
    | None => sendVideo Pause (setIsPlaying false st)
    end.
Proof.
  intros Hinj Hreach Hk Hsel Hplay Ht.
  pose proof (video_ids_unique createId st Hinj Hreach) as Hnd.
  destruct (selection_lookup createId Video st _ Hreach Hsel)
    as (s & Hs & Hid & Hin).
  destruct (element_lookup createId st _ Hreach Hsel) as (s' & a & _ & Ha).
  cbn [selectedSegmentOf segmentsOf] in *.
  assert (Hcur : In cur (videoSegments st)).
  { apply (Permutation_in cur
             (Permutation_sym (sortByTimelineStart_perm (videoSegments st)))).
    eapply nth_error_In; eassumption. }
  assert (s = cur) by (eapply same_id_same_segment; eassumption); subst s.
  unfold onTimeUpdate, onTimeUpdateOn, getNextVideoSegment.
  rewrite Ha, Hs, Hplay; cbn [negb].
  apply Qle_bool_iff in Ht; rewrite Ht.
  now rewrite (nextAfter_in_order _ k cur Hnd Hk).
Qed.

(** In a session whose id supply never repeats, playback runs through the
    video segments in timeline order: when the position reaches the end of
    the selected segment, the [k]-th in timeline order, while playing, the
    next one in that order is selected, and after the last one the playback
    stops and the video is paused. *)
Theorem playback_follows_timeline_order (createId : nat -> Id) (st : Editor)
    (k : nat) (cur : Segment.t) (t : Q) :
  injective createId ->
  Reachable createId st ->
  nth_error (sortByTimelineStart (videoSegments st)) k = Some cur ->
  selectedVideoSegmentId st = Some (Segment.id cur) ->
  isPlaying st = true ->
  Segment.sourceStart cur + Segment.duration cur <= t ->
  onTimeUpdate t st
  = match nth_error (sortByTimelineStart (videoSegments st)) (S k) with
    | Some next => setSelectedVideoSegmentId (Some (Segment.id next)) st
    | None => sendVideo Pause (setIsPlaying false st)
    end.
Proof. apply onTimeUpdate_in_order. Qed.

Lemma playback_follows_timeline_order_witness :
  onTimeUpdate 4 Demo.playing
  = match nth_error (sortByTimelineStart (videoSegments Demo.playing)) 1 with
    | Some next =>
        setSelectedVideoSegmentId (Some (Segment.id next)) Demo.playing
    | None => sendVideo Pause (setIsPlaying false Demo.playing)
    end.
Proof.
  apply (playback_follows_timeline_order unary Demo.playing 0 Demo.first 4).
  - apply unary_injective.
  - apply Demo_playing_reachable.
  - reflexivity.
  - reflexivity.
  - reflexivity.
  - vm_compute; discriminate.
Defined.

(** A progress notification changes nothing while the playback is stopped,
    and nothing before the position reaches the end of the selected
    segment. *)
Theorem early_notification_changes_nothing (t : Q) (st : Editor)
    (sel : Segment.t) :
  selectedVideoSegment st = Some sel ->
  isPlaying st = false
  \/ t < Segment.sourceStart sel + Segment.duration sel ->
  onTimeUpdate t st = st.
Proof.
  intros Hsel Hearly.
  unfold onTimeUpdate, onTimeUpdateOn; rewrite Hsel.
  destruct (videoRef_current st); [|reflexivity].
  destruct (isPlaying st); cbn [negb]; [|reflexivity].
  destruct Hearly as [Hstop|Hlt]; [discriminate|].
  destruct (Qle_bool (Segment.sourceStart sel + Segment.duration sel) t)
    eqn:E; [|reflexivity].
  apply Qle_bool_iff in E; elim (Qlt_not_le _ _ Hlt E).
Qed.

Lemma early_notification_changes_nothing_witness :
  onTimeUpdate 3 Demo.playing = Demo.playing.
Proof.
  apply (early_notification_changes_nothing 3 Demo.playing Demo.first).
  - reflexivity.
  - right; vm_compute; reflexivity.
Defined.

Lemma sort_length (l : list Segment.t) :
  List.length (sortByTimelineStart l) = List.length l.
Proof.
  symmetry; apply Permutation_length, sortByTimelineStart_perm.
Qed.

Lemma endOfSelected_step (createId : nat -> Id) (st : Editor) (k : nat)
    (cur : Segment.t) :
  injective createId ->
  Reachable createId st ->
  nth_error (sortByTimelineStart (videoSegments st)) k = Some cur ->
  selectedVideoSegmentId st = Some (Segment.id cur) ->
  isPlaying st = true ->
  endOfSelected st
  = match nth_error (sortByTimelineStart (videoSegments st)) (S k) with
    | Some next => setSelectedVideoSegmentId (Some (Segment.id next)) st
    | None => sendVideo Pause (setIsPlaying false st)
    end
  /\ Reachable createId (endOfSelected st).
Proof.
  intros Hinj Hreach Hk Hsel Hplay.
  pose proof (video_ids_unique createId st Hinj Hreach) as Hnd.
  destruct (selection_lookup createId Video st _ Hreach Hsel)
    as (s & Hs & Hid & Hin).
  cbn [selectedSegmentOf segmentsOf] in *.
  assert (Hcur : In cur (videoSegments st)).
  { apply (Permutation_in cur
             (Permutation_sym (sortByTimelineStart_perm (videoSegments st)))).
    eapply nth_error_In; eassumption. }
  assert (s = cur) by (eapply same_id_same_segment; eassumption); subst s.
  unfold endOfSelected; rewrite Hs; split.
  - apply (onTimeUpdate_in_order createId st k cur); auto.
    apply Qle_refl.
  - now apply Reach_timeUpdate.
Qed.

Lemma playback_runs_out (createId : nat -> Id) (m : nat) :
  injective createId ->
  forall (st : Editor) (k : nat) (cur : Segment.t),
    Reachable createId st ->
    nth_error (sortByTimelineStart (videoSegments st)) k = Some cur ->
    selectedVideoSegmentId st = Some (Segment.id cur) ->
    isPlaying st = true ->
    (k + S m = List.length (videoSegments st))%nat ->
    isPlaying (Nat.iter (S m) endOfSelected st) = false
    /\ videoLog (Nat.iter (S m) endOfSelected st) = videoLog st ++ [Pause]
    /\ videoSegments (Nat.iter (S m) endOfSelected st) = videoSegments st.
Proof.
  intros Hinj; induction m as [|m IH]; intros st k cur Hreach Hk Hsel Hplay Hn;
    destruct (endOfSelected_step createId st k cur Hinj Hreach Hk Hsel Hplay)
      as [Hstep Hreach'].
  - cbn [Nat.iter nat_rect]; rewrite Hstep.
    replace (nth_error (sortByTimelineStart (videoSegments st)) (S k))
      with (@None Segment.t); [repeat split|].
    symmetry; apply nth_error_None; rewrite sort_length; lia.
  - rewrite Nat.iter_succ_r.
    destruct (nth_error (sortByTimelineStart (videoSegments st)) (S k))
      as [next|] eqn:Enext.
    + rewrite Hstep in Hreach' |- *.
      apply (IH _ (S k) next Hreach'); [exact Enext | reflexivity | exact Hplay|].
      cbn [videoSegments setSelectedVideoSegmentId]; lia.
    + apply nth_error_None in Enext; rewrite sort_length in Enext; lia.
Qed.

(** In a session whose id supply never repeats, playback always runs out:
    while the [k]-th of [n] video segments in timeline order plays, [n - k]
    notifications, each reporting the end of the segment then selected, stop
    the playback with exactly one pause and without touching a segment. *)
Theorem playback_reaches_the_end (createId : nat -> Id) (st : Editor)
    (k : nat) (cur : Segment.t) :
  injective createId ->
  Reachable createId st ->
  nth_error (sortByTimelineStart (videoSegments st)) k = Some cur ->
  selectedVideoSegmentId st = Some (Segment.id cur) ->
  isPlaying st = true ->
  isPlaying
    (Nat.iter (List.length (videoSegments st) - k) endOfSelected st) = false
  /\ videoLog
       (Nat.iter (List.length (videoSegments st) - k) endOfSelected st)
     = videoLog st ++ [Pause]
  /\ videoSegments
       (Nat.iter (List.length (videoSegments st) - k) endOfSelected st)
     = videoSegments st.
Proof.
  intros Hinj Hreach Hk Hsel Hplay.
  assert (Hlt : (k < List.length (videoSegments st))%nat).
  { rewrite <- sort_length; apply nth_error_Some; congruence. }
  replace (List.length (videoSegments st) - k)%nat
    with (S (List.length (videoSegments st) - k - 1)) by lia.
  apply (playback_runs_out createId _ Hinj st k cur); auto; lia.
Qed.

Lemma playback_reaches_the_end_witness :
  isPlaying
    (Nat.iter (List.length (videoSegments Demo.playing) - 0) endOfSelected
       Demo.playing) = false
  /\ videoLog
       (Nat.iter (List.length (videoSegments Demo.playing) - 0) endOfSelected
          Demo.playing)
     = videoLog Demo.playing ++ [Pause]
  /\ videoSegments
       (Nat.iter (List.length (videoSegments Demo.playing) - 0) endOfSelected
          Demo.playing)
     = videoSegments Demo.playing.
Proof.
  apply (playback_reaches_the_end unary Demo.playing 0 Demo.first).
  - apply unary_injective.
  - apply Demo_playing_reachable.
  - reflexivity.
  - reflexivity.
  - reflexivity.
Defined.

(** ** A gesture changes one segment *)

Lemma map_at_unique (f : Segment.t -> Segment.t) (l : list Segment.t)
    (i : nat) (seg : Segment.t) :
  NoDup (map Segment.id l) -> nth_error l i = Some seg ->
  (forall s, Segment.id s <> Segment.id seg -> f s = s) ->
  map f l = firstn i l ++ f seg :: skipn (S i) l.
Proof.
  intros Hnd Hi Hf; revert i Hnd Hi.
  induction l as [|x l IH]; intros i Hnd Hi; [destruct i; discriminate|].
  inversion Hnd as [|? ? Hx Hrest]; subst.
  destruct i as [|i]; cbn [nth_error map firstn skipn app] in *.
  - injection Hi as ->; f_equal.
    rewrite <- (map_id l) at 2; apply map_ext_in; intros s Hs.
    apply Hf; intros E; apply Hx; rewrite <- E; now apply in_map.
  - rewrite (IH i Hrest Hi), Hf; [reflexivity|].
    intros E; apply Hx; rewrite E.
    apply in_map; eapply nth_error_In; eassumption.
Qed.

Lemma map_none (f : Segment.t -> Segment.t) (l : list Segment.t) (i : Id) :
  ~ In i (map Segment.id l) ->
  (forall s, Segment.id s <> i -> f s = s) ->
  map f l = l.
Proof.
  intros Hfree Hf; rewrite <- (map_id l) at 2.
  apply map_ext_in; intros s Hs; apply Hf.
  intros E; apply Hfree; rewrite <- E; now apply in_map.
Qed.

Lemma NoDup_app_disjoint {A} (l l' : list A) (x : A) :
  NoDup (l ++ l') -> In x l -> In x l' -> False.
Proof.
  induction l as [|y l IH]; intros Hnd Hl Hl'; [destruct Hl|].
  inversion Hnd as [|? ? Hy Hrest]; subst.
  destruct Hl as [->|Hl]; [|now apply IH].
  apply Hy, in_or_app; now right.
Qed.

Lemma one_bearer (createId : nat -> Id) (tr : Track) (st : Editor)
    (seg : Segment.t) :
  injective createId -> Reachable createId st ->
  In seg (segmentsOf tr st) ->
  NoDup (map Segment.id (segmentsOf tr st))
  /\ ~ In (Segment.id seg) (map Segment.id (segmentsOf (other tr) st)).
Proof.
  intros Hinj Hreach Hin.
  destruct (Reachable_fresh createId st Hinj Hreach) as [Hnd _].
  unfold allIds in Hnd.
  apply NoDup_app_remove_l, NoDup_app_remove_l in Hnd.
  pose proof (in_map Segment.id _ _ Hin) as Hid.
  destruct tr; cbn [segmentsOf other] in *; split.
  - now apply NoDup_app_remove_r in Hnd.
  - intros H; exact (NoDup_app_disjoint _ _ _ Hnd Hid H).
  - now apply NoDup_app_remove_l in Hnd.
  - intros H; exact (NoDup_app_disjoint _ _ _ Hnd H Hid).
Qed.

Lemma dragSegment_other (segId : Id) (x0 t0 u : Q) (s : Segment.t) :
  Segment.id s <> segId ->
  dragSegment (Drag.mk (Some segId) x0 t0) u s = s.
Proof.
  intros Hne; unfold dragSegment; cbn [Drag.id]; rewrite idIs_Some.
  now rewrite (proj2 (String.eqb_neq _ _) Hne).
Qed.

(** In a session whose id supply never repeats, a drag moves the grabbed
    segment and nothing else: the track of the segment is as before except
    at the place of the segment, where [timelineStart] is the new one, and
    the other track is as before. *)
Theorem drag_moves_one_segment (createId : nat -> Id) (tr : Track)
    (vA aA : list Asset.t) (st : Editor) (seg : Segment.t) (i : nat)
    (x0 x : Q) :
  injective createId ->
  Reachable createId st ->
  nth_error (segmentsOf tr st) i = Some seg ->
  resizeState st = None ->
  segmentsOf tr
    (onMouseMove vA aA x
       (onSegmentMouseDown x0 (Segment.id seg) (Segment.timelineStart seg)
          st))
  = firstn i (segmentsOf tr st)
    ++ Segment.mk (Segment.id seg) (Segment.assetId seg)
         (Segment.sourceStart seg) (Segment.duration seg)
         (Qmax 0 (Segment.timelineStart seg + (x - x0) / 80))
    :: skipn (S i) (segmentsOf tr st)
  /\ segmentsOf (other tr)
       (onMouseMove vA aA x
          (onSegmentMouseDown x0 (Segment.id seg) (Segment.timelineStart seg)
             st))
     = segmentsOf (other tr) st.
Proof.
  intros Hinj Hreach Hi Hr.
  destruct (one_bearer createId tr st seg Hinj Hreach
              (nth_error_In _ _ Hi)) as [Hnd Hother].
  set (d := Drag.mk (Some (Segment.id seg)) x0 (Segment.timelineStart seg)).
  assert (Hmove : forall tr',
             segmentsOf tr'
               (onMouseMove vA aA x
                  (onSegmentMouseDown x0 (Segment.id seg)
                     (Segment.timelineStart seg) st))
             = map (dragSegment d
                      (Segment.timelineStart seg
                       + (x - x0) / PIXELS_PER_SECOND))
                 (segmentsOf tr' st)).
  { intros tr'; unfold onMouseMove, onResize.
    replace (resizeState
               (onDrag x
                  (onSegmentMouseDown x0 (Segment.id seg)
                     (Segment.timelineStart seg) st)))
      with (@None Resize.t) by (simpl; now rewrite Hr).
    rewrite (segmentsOf_onDrag tr' x _ d) by reflexivity.
    destruct tr'; reflexivity. }
  rewrite !Hmove; split.
  - rewrite (map_at_unique _ _ i seg Hnd Hi).
    + do 2 f_equal; unfold dragSegment, d; cbn [Drag.id].
      now rewrite idIs_Some, String.eqb_refl.
    + intros s Hs; now apply dragSegment_other.
  - apply (map_none _ _ (Segment.id seg) Hother).
    intros s Hs; now apply dragSegment_other.
Qed.

Lemma drag_moves_one_segment_witness :
  segmentsOf Video
    (onMouseMove [] [] 260
       (onSegmentMouseDown 100 (Segment.id Demo.second)
          (Segment.timelineStart Demo.second) Demo.cut))
  = firstn 1 (segmentsOf Video Demo.cut)
    ++ Segment.mk (Segment.id Demo.second) (Segment.assetId Demo.second)
         (Segment.sourceStart Demo.second) (Segment.duration Demo.second)
         (Qmax 0 (Segment.timelineStart Demo.second + (260 - 100) / 80))
    :: skipn 2 (segmentsOf Video Demo.cut)
  /\ segmentsOf (other Video)
       (onMouseMove [] [] 260
          (onSegmentMouseDown 100 (Segment.id Demo.second)
             (Segment.timelineStart Demo.second) Demo.cut))
     = segmentsOf (other Video) Demo.cut.
Proof.
  apply (drag_moves_one_segment unary Video [] [] Demo.cut Demo.second 1
           100 260).
  - apply unary_injective.
  - apply Demo_cut_reachable.
  - reflexivity.
  - reflexivity.
Defined.

(** In a session whose id supply never repeats, a resize changes the segment
    whose handle was grabbed and nothing else, in either track. *)
Theorem resize_changes_one_segment (createId : nat -> Id) (tr : Track)
    (vA aA : list Asset.t) (st : Editor) (seg : Segment.t) (i : nat)
    (edge : Edge) (x0 x : Q) :
  injective createId ->
  Reachable createId st ->
  nth_error (segmentsOf tr st) i = Some seg ->
  dragState st = None ->
  segmentsOf tr (onMouseMove vA aA x (onHandleMouseDown edge x0 seg st))
  = firstn i (segmentsOf tr st)
    ++ resizeSegment (seenBy tr vA aA)
         (Resize.mk (Some (Segment.id seg)) edge x0
            (Segment.sourceStart seg) (Segment.duration seg))
         ((x - x0) / PIXELS_PER_SECOND) seg
    :: skipn (S i) (segmentsOf tr st)
  /\ segmentsOf (other tr)
       (onMouseMove vA aA x (onHandleMouseDown edge x0 seg st))
     = segmentsOf (other tr) st.
Proof.
  intros Hinj Hreach Hi Hd.
  destruct (one_bearer createId tr st seg Hinj Hreach
              (nth_error_In _ _ Hi)) as [Hnd Hother].
  set (r := Resize.mk (Some (Segment.id seg)) edge x0
              (Segment.sourceStart seg) (Segment.duration seg)).
  assert (Hother_seg : forall assets s,
             Segment.id s <> Segment.id seg ->
             resizeSegment assets r ((x - x0) / PIXELS_PER_SECOND) s = s).
  { intros assets s Hne; apply resizeSegment_other.
    unfold r; cbn [Resize.id]; rewrite idIs_Some.
    now apply String.eqb_neq. }
  assert (Hmove : forall tr',
             segmentsOf tr'
               (onMouseMove vA aA x (onHandleMouseDown edge x0 seg st))
             = map (resizeSegment (seenBy tr' vA aA) r
                      ((x - x0) / PIXELS_PER_SECOND))
                 (segmentsOf tr' st)).
  { intros tr'; unfold onMouseMove, onDrag.
    replace (dragState (onHandleMouseDown edge x0 seg st))
      with (@None Drag.t) by (simpl; now rewrite Hd).
    rewrite (segmentsOf_onResize tr' vA aA x _ r) by reflexivity.
    destruct tr'; reflexivity. }
  rewrite !Hmove; split.
  - apply (map_at_unique _ _ i seg Hnd Hi); intros s Hs.
    now apply Hother_seg.
  - apply (map_none _ _ (Segment.id seg) Hother); intros s Hs.
    now apply Hother_seg.
Qed.

Lemma resize_changes_one_segment_witness :
  segmentsOf Video
    (onMouseMove [] [] 180 (onHandleMouseDown EdgeRight 100 Demo.first Demo.cut))
  = firstn 0 (segmentsOf Video Demo.cut)
    ++ resizeSegment (seenBy Video [] [])
         (Resize.mk (Some (Segment.id Demo.first)) EdgeRight 100
            (Segment.sourceStart Demo.first) (Segment.duration Demo.first))
         ((180 - 100) / PIXELS_PER_SECOND) Demo.first
    :: skipn 1 (segmentsOf Video Demo.cut)
  /\ segmentsOf (other Video)
       (onMouseMove [] [] 180
          (onHandleMouseDown EdgeRight 100 Demo.first Demo.cut))
     = segmentsOf (other Video) Demo.cut.
Proof.
  apply (resize_changes_one_segment unary Video [] [] Demo.cut Demo.first 0
           EdgeRight 100 180).
  - apply unary_injective.
  - apply Demo_cut_reachable.
  - reflexivity.
  - reflexivity.
Defined.

(** ** The audio scheduler *)





(** ** The effect that plays *)

(** In every state of a session, the effect that follows a change of the
    selection or of [isPlaying] seeks the video element to the [sourceStart]
    of the selected segment and plays it when the playback is on, and sends
    nothing when it is off or nothing is selected; it changes nothing
    else. *)
Theorem effect_seeks_and_plays (createId : nat -> Id) (st : Editor) :
  Reachable createId st ->
  videoLog (videoPlayEffect st)
  = match selectedVideoSegment st with
    | Some sel =>
        if isPlaying st
        then videoLog st ++ [Seek (Segment.sourceStart sel); Play]
        else videoLog st
    | None => videoLog st
    end
  /\ sameContent st (videoPlayEffect st)
  /\ isPlaying (videoPlayEffect st) = isPlaying st
  /\ selectedVideoSegmentId (videoPlayEffect st) = selectedVideoSegmentId st.
Proof.
  intros Hreach.
  split; [|split; [apply playEffect_content|]].
  - unfold videoPlayEffect.
    destruct (selectedVideoSegmentId st) as [i|] eqn:Hsel.
    + destruct (element_lookup createId st i Hreach Hsel)
        as (s & a & Hs & Ha).
      rewrite Ha, Hs; destruct (isPlaying st); [|reflexivity].
      cbn; now rewrite <- app_assoc.
    + assert (Hs : selectedVideoSegment st = None)
        by (unfold selectedVideoSegment; now rewrite Hsel).
      rewrite Hs; now destruct (videoRef_current st).
  - unfold videoPlayEffect.
    destruct (videoRef_current st), (selectedVideoSegment st);
      try (split; reflexivity).
    destruct (isPlaying st) eqn:E; split; cbn; now rewrite ?E.
Qed.

Lemma effect_seeks_and_plays_witness :
  videoLog (videoPlayEffect Demo.playing)
  = match selectedVideoSegment Demo.playing with
    | Some sel =>
        if isPlaying Demo.playing
        then videoLog Demo.playing ++ [Seek (Segment.sourceStart sel); Play]
        else videoLog Demo.playing
    | None => videoLog Demo.playing
    end
  /\ sameContent Demo.playing (videoPlayEffect Demo.playing)
  /\ isPlaying (videoPlayEffect Demo.playing) = isPlaying Demo.playing
  /\ selectedVideoSegmentId (videoPlayEffect Demo.playing)
     = selectedVideoSegmentId Demo.playing.
Proof.
  apply (effect_seeks_and_plays unary Demo.playing).
  apply Demo_playing_reachable.
Defined.

(** ** The resize handler as installed *)

(** The pointer listener is installed once, after the first render, and
    reads the asset lists of that render, which are empty: as installed, a
    resize never applies the ceiling of the asset duration.  The segment
    whose handle was grabbed gets [sourceStart] moved by the pointer (left
    handle, not below 0) or kept (right handle), and the duration before the
    gesture minus (left) or plus (right) the move, not below 0.1, whatever
    the registry says. *)
Theorem installed_resize_has_no_ceiling (tr : Track) (st : Editor)
    (seg : Segment.t) (i : nat) (edge : Edge) (x0 x : Q) :
  nth_error (segmentsOf tr st) i = Some seg ->
  dragState st = None ->
  nth_error
    (segmentsOf tr
       (installedOnMouseMove x (onHandleMouseDown edge x0 seg st)))
    i
  = Some
      (Segment.mk (Segment.id seg) (Segment.assetId seg)
         match edge with
         | EdgeLeft => Qmax 0 (Segment.sourceStart seg + (x - x0) / 80)
         | EdgeRight => Segment.sourceStart seg
         end
         (Qmax 0.1
            match edge with
            | EdgeLeft => Segment.duration seg - (x - x0) / 80
            | EdgeRight => Segment.duration seg + (x - x0) / 80
            end)
         (Segment.timelineStart seg)).
Proof.
  intros Hi Hd.
  set (r := Resize.mk (Some (Segment.id seg)) edge x0
              (Segment.sourceStart seg) (Segment.duration seg)).
  unfold installedOnMouseMove, onMouseMove, onDrag.
  replace (dragState (onHandleMouseDown edge x0 seg st))
    with (@None Drag.t) by (simpl; now rewrite Hd).
  rewrite (segmentsOf_onResize tr _ _ x _ r) by reflexivity.
  replace (segmentsOf tr (onHandleMouseDown edge x0 seg st))
    with (segmentsOf tr st) by (destruct tr; reflexivity).
  rewrite nth_error_map, Hi; cbn [option_map]; f_equal.
  unfold resizeSegment.
  replace (idIs (Resize.id r) (Segment.id seg)) with true
    by (simpl; now rewrite String.eqb_refl).
  replace (assetMax
             (seenBy tr (videoAssets initialEditor)
                (audioAssets initialEditor)) seg)
    with Infinity by (destruct tr; reflexivity).
  destruct edge; reflexivity.
Qed.

Lemma installed_resize_has_no_ceiling_witness :
  nth_error
    (segmentsOf Video
       (installedOnMouseMove 900
          (onHandleMouseDown EdgeRight 100 Demo.third Demo.cut)))
    2
  = Some
      (Segment.mk (Segment.id Demo.third) (Segment.assetId Demo.third)
         (Segment.sourceStart Demo.third)
         (Qmax 0.1 (Segment.duration Demo.third + (900 - 100) / 80))
         (Segment.timelineStart Demo.third)).
Proof.
  apply (installed_resize_has_no_ceiling Video Demo.cut Demo.third 2
           EdgeRight 100 900); reflexivity.
Defined.
